(** * Group registry of the FastMCP server: a shallow embedding

    The development follows [mcp/server/fastmcp/groups/base.py] (the [Group]
    record) and [mcp/server/fastmcp/groups/manager.py] (the [GroupManager]
    class).  A Python [dict] keeps its keys in insertion order, and the
    registry's [list_groups] exposes that order, so the dictionary is an
    association list here; the list objects handed out by [list_groups] live
    in an object store of their own, next to the manager and the log records
    of the module's logger. *)

From Stdlib Require Import ZArith.
From stdpp Require Import base option strings list sorting.

Set Default Proof Using "Type".

(** ** Values of type [Any] stored in [meta] *)

#[warnings="-register-all"]
Inductive pyval : Type :=
  | PyNone
  | PyBool (b : bool)
  | PyInt (z : Z)
  | PyStr (s : string)
  | PyList (items : list pyval)
  | PyDict (items : list (string * pyval)).

(** [GROUPS_META_KEY], as the tests pin it down
    ([tests/server/test_groups.py], [test_groups_meta_key_value]). *)
Definition GROUPS_META_KEY : string := "io.modelcontextprotocol/groups".

(** Modelled from the spec: [mcp.types.Icon] and [mcp.types.Annotations] are
    imported by [base.py] but declared outside the sources at hand; the tests
    build them as [Icon(src=...)] and [Annotations(audience=[...])].  The
    registry never looks inside either. *)
Record Icon : Type := mkIcon {
  src : string;
  mimeType : option string;
  sizes : option (list string)
}.

Record Annotations : Type := mkAnnotations {
  audience : option (list string)
}.

(** ** [base.py]: the [Group] model

    No method of the manager assigns to a field of a record it stores, so a
    record is a value here. *)

Record Group : Type := mkGroup {
  name : string;
  title : option string;
  description : option string;
  icons : option (list Icon);
  annotations : option Annotations;
  meta : option (list (string * pyval))
}.

(** ** Insertion-ordered dictionaries with string keys *)

Module dict.
Section ops.
Context {V : Type}.

(** The type is plain [list (string * V)], so that the list lemmas apply
    to dictionaries as they are. *)
Local Abbreviation t := (list (string * V)).

Definition empty : t := [].

(** [d.get(k)] *)
Fixpoint get (k : string) (d : t) : option V :=
  match d with
  | [] => None
  | (k', v) :: d' => if decide (k = k') then Some v else get k d'
  end.

(** [k in d] *)
Definition contains (k : string) (d : t) : bool :=
  match get k d with Some _ => true | None => false end.

(** [d[k] = v]: an existing key keeps its position, a new one goes last. *)
Fixpoint setitem (k : string) (v : V) (d : t) : t :=
  match d with
  | [] => [(k, v)]
  | (k', v') :: d' =>
      if decide (k = k') then (k, v) :: d' else (k', v') :: setitem k v d'
  end.

(** [del d[k]]: [None] stands for the [KeyError] of a missing key. *)
Fixpoint delitem (k : string) (d : t) : option t :=
  match d with
  | [] => None
  | (k', v') :: d' =>
      if decide (k = k') then Some d'
      else match delitem k d' with
           | Some d'' => Some ((k', v') :: d'')
           | None => None
           end
  end.

Definition keys (d : t) : list string := d.*1.

(** the items of [d.values()], in order *)
Definition values (d : t) : list V := d.*2.

(** A Python dictionary holds each key once. *)
Definition wf (d : t) : Prop := NoDup (keys d).
End ops.
Abbreviation t V := (list (string * V)) (only parsing).
End dict.

(** ** Exceptions, the world, and the monad of method bodies *)

Inductive exn : Type :=
  | KeyError (key : string)
  | IndexError
  | ValidationError (field : string)
  | MethodNotFound (method : string).

Inductive outcome (A : Type) : Type :=
  | Return (a : A)
  | Raise (e : exn).
Arguments Return {A} a.
Arguments Raise {A} e.

(** [manager.py]: the two attributes that [__init__] sets. *)
Record GroupManager : Type := mkGroupManager {
  _groups : dict.t Group;
  _warn_on_duplicate_groups : bool
}.

(** List objects are numbered in the order of their creation. *)
Abbreviation loc := nat (only parsing).

(** What a method can touch: the manager it is called on, the list objects
    that callers hold, and the warnings the logger has received. *)
Record World : Type := mkWorld {
  self : GroupManager;
  lists : list (list Group);
  caplog : list string
}.

Definition M (A : Type) : Type := World → outcome A * World.

Definition ret {A} (a : A) : M A := λ w, (Return a, w).
Definition raise {A} (e : exn) : M A := λ w, (Raise e, w).
Definition bind {A B} (c : M A) (k : A → M B) : M B :=
  λ w, match c w with
       | (Return a, w') => k a w'
       | (Raise e, w') => (Raise e, w')
       end.

Declare Scope py_scope.
Delimit Scope py_scope with py.
Notation "x <- c ;; k" := (bind c (λ x, k))
  (at level 100, c at next level, right associativity) : py_scope.
Notation "c ;;; k" := (bind c (λ _, k))
  (at level 100, right associativity) : py_scope.
Open Scope py_scope.

(** Reads and writes of [self._groups], [self._warn_on_duplicate_groups]. *)
Definition get_groups : M (dict.t Group) := λ w, (Return (_groups (self w)), w).

Definition set_groups (d : dict.t Group) : M unit :=
  λ w, (Return (),
        mkWorld (mkGroupManager d (_warn_on_duplicate_groups (self w)))
                (lists w) (caplog w)).

Definition get_warn : M bool :=
  λ w, (Return (_warn_on_duplicate_groups (self w)), w).

(** [logger.warning(msg)] *)
Definition logger_warning (msg : string) : M unit :=
  λ w, (Return (), mkWorld (self w) (lists w) (caplog w ++ [msg])).

(** [GroupManager(warn_on_duplicate_groups)]: an empty registry.  The flag
    defaults to [True]. *)
Definition GroupManager_init (warn_on_duplicate_groups : bool) : GroupManager :=
  mkGroupManager dict.empty warn_on_duplicate_groups.

Definition new_world (warn_on_duplicate_groups : bool) : World :=
  mkWorld (GroupManager_init warn_on_duplicate_groups) [] [].

(** ** [manager.py]: the four methods *)

(** In [if existing:] the test is the truth value of [existing].  [None] is
    false; a [Group] is a pydantic model, which defines neither [__bool__]
    nor [__len__], so every stored record counts as true and the test is the
    case distinction below. *)
Definition add_group (group : Group) : M Group :=
  d <- get_groups ;;
  match dict.get (name group) d with
  | Some existing =>
      warn <- get_warn ;;
      (if warn
       then logger_warning ("Group '" +:+ name group +:+ "' is already registered")
       else ret ()) ;;;
      ret existing
  | None =>
      set_groups (dict.setitem (name group) group d) ;;;
      ret group
  end.

Definition get_group (name : string) : M (option Group) :=
  d <- get_groups ;;
  ret (dict.get name d).

Definition remove_group (name : string) : M unit :=
  d <- get_groups ;;
  if dict.contains name d then
    match dict.delitem name d with
    | Some d' => set_groups d'
    | None => raise (KeyError name)
    end
  else ret ().

(** [self._groups.values()] is a live view of the dictionary; [list(...)]
    reads it once and builds a new list object.  A reference to a sequence
    is one or the other. *)
Inductive seqref : Type :=
  | ValuesView
  | ListObj (l : loc).

Definition groups_values : M seqref := ret ValuesView.

(** The items one sees when iterating [r] in world [w]. *)
Definition items (r : seqref) (w : World) : option (list Group) :=
  match r with
  | ValuesView => Some (dict.values (_groups (self w)))
  | ListObj l => lists w !! l
  end.

(** [list(r)] *)
Definition list_new (r : seqref) : M seqref :=
  λ w, match items r w with
       | Some gs =>
           (Return (ListObj (length (lists w))),
            mkWorld (self w) (lists w ++ [gs]) (caplog w))
       | None => (Raise IndexError, w)
       end.

Definition list_groups : M seqref :=
  v <- groups_values ;;
  list_new v.

(** What a caller can do to a list it holds: [r.append(g)] and [del r[i]].
    A dictionary view offers neither. *)
Definition list_append (r : seqref) (g : Group) : M unit :=
  λ w, match r with
       | ListObj l =>
           match lists w !! l with
           | Some gs => (Return (), mkWorld (self w) (<[l := gs ++ [g]]> (lists w)) (caplog w))
           | None => (Raise IndexError, w)
           end
       | ValuesView => (Raise IndexError, w)
       end.

Definition list_delitem (r : seqref) (i : nat) : M unit :=
  λ w, match r with
       | ListObj l =>
           match lists w !! l with
           | Some gs =>
               if decide (i < length gs)
               then (Return (), mkWorld (self w) (<[l := delete i gs]> (lists w)) (caplog w))
               else (Raise IndexError, w)
           | None => (Raise IndexError, w)
           end
       | ValuesView => (Raise IndexError, w)
       end.

(** ** Constructing a [Group]

    Calling [Group] with keyword arguments runs pydantic's validation.
    [name: str] has no default, so it is the one required field; every other
    field defaults to [None].  The annotation [str] carries no length
    constraint. *)
Record GroupArgs : Type := mkGroupArgs {
  arg_name : option string;
  arg_title : option string;
  arg_description : option string;
  arg_icons : option (list Icon);
  arg_annotations : option Annotations;
  arg_meta : option (list (string * pyval))
}.

Definition Group_init (kw : GroupArgs) : outcome Group :=
  match arg_name kw with
  | None => Raise (ValidationError "name")
  | Some n =>
      Return (mkGroup n (arg_title kw) (arg_description kw) (arg_icons kw)
                      (arg_annotations kw) (arg_meta kw))
  end.

(** ** Scripts: sequences of method calls on one manager *)

Inductive call : Type :=
  | CallAdd (group : Group)
  | CallGet (n : string)
  | CallRemove (n : string)
  | CallList.

(** What a call hands back.  A list is observed through its items. *)
Inductive retval : Type :=
  | RGroup (g : Group)
  | RFound (o : option Group)
  | RNone
  | RList (r : seqref) (gs : option (list Group)).

Definition read_items (r : seqref) : M (option (list Group)) :=
  λ w, (Return (items r w), w).

Definition invoke (c : call) : M retval :=
  match c with
  | CallAdd g => r <- add_group g ;; ret (RGroup r)
  | CallGet n => r <- get_group n ;; ret (RFound r)
  | CallRemove n => remove_group n ;;; ret RNone
  | CallList => r <- list_groups ;; gs <- read_items r ;; ret (RList r gs)
  end.

Fixpoint script (cs : list call) : M (list retval) :=
  match cs with
  | [] => ret []
  | c :: cs' => r <- invoke c ;; rs <- script cs' ;; ret (r :: rs)
  end.

(** The registry of a world, and the world a computation leaves behind. *)
Definition registry (w : World) : dict.t Group := _groups (self w).

Definition after {A} (c : M A) (w : World) : World := (c w).2.
Definition result {A} (c : M A) (w : World) : outcome A := (c w).1.

(** Every key is the name of the record stored under it, and no key occurs
    twice: what [add_group] and [remove_group] maintain. *)
Definition registry_wf (d : dict.t Group) : Prop :=
  dict.wf d ∧ ∀ k g, (k, g) ∈ d → k = name g.

(** ** Histories

    What a sequence of calls says about the registry, read off the calls
    alone.  A name is present when some [add_group] of it has no later
    [remove_group]; a record was inserted by call number [i] when that call is
    [add_group] of the record, the name was not present just before, and no
    later call removes it. *)

Definition present (cs : list call) (n : string) : Prop :=
  ∃ j g, cs !! j = Some (CallAdd g) ∧ name g = n ∧
         ∀ k, j < k → cs !! k ≠ Some (CallRemove n).

Definition inserted_at (cs : list call) (i : nat) (g : Group) : Prop :=
  cs !! i = Some (CallAdd g) ∧
  ¬ present (take i cs) (name g) ∧
  ∀ k, i < k → cs !! k ≠ Some (CallRemove (name g)).

(** [x] was inserted before [y]. *)
Definition earlier (cs : list call) (x y : string * Group) : Prop :=
  ∀ i j, inserted_at cs i x.2 → inserted_at cs j y.2 → i < j.

(** The registry [d] is the one the history [cs] describes: its keys are the
    names present, its records are the ones inserted and not removed since,
    and they stand in the order of their insertion. *)
Definition tracks (cs : list call) (d : dict.t Group) : Prop :=
  registry_wf d ∧
  (∀ n, n ∈ dict.keys d ↔ present cs n) ∧
  (∀ g, (name g, g) ∈ d ↔ ∃ i, inserted_at cs i g) ∧
  StronglySorted (earlier cs) d.

(** ** The protocol side

    Modelled from the spec: the low-level [Server] with its [list_groups]
    decorator, [NotificationOptions], [get_capabilities] and the [FastMCP]
    wrapper live in [mcp/server/lowlevel/server.py] and
    [mcp/server/fastmcp/server.py], which are not among the sources; only
    their tests are.  The definitions below follow sections 4.2 and 6 of the
    specification and the calls the tests make. *)

Record NotificationOptions : Type := mkNotificationOptions {
  prompts_changed : bool;
  resources_changed : bool;
  tools_changed : bool;
  groups_changed : bool
}.

(** Modelled from the spec: [NotificationOptions()] has every flag off
    ([test_groups_changed_default]). *)
Definition NotificationOptions_default : NotificationOptions :=
  mkNotificationOptions false false false false.

Record GroupsCapability : Type := mkGroupsCapability {
  list_changed : bool
}.

(** Modelled from the spec: of the advertised capability set only the groups
    entry matters here; [None] is an entry that is absent. *)
Record ServerCapabilities : Type := mkServerCapabilities {
  groups : option GroupsCapability
}.

Record ListGroupsResult : Type := mkListGroupsResult {
  result_groups : list Group;
  nextCursor : option string
}.

(** Modelled from the spec: a list request carries an optional cursor. *)
Record ListGroupsRequest : Type := mkListGroupsRequest {
  cursor : option string
}.

(** Modelled from the spec: the two legal shapes of a list handler, one that
    takes no argument and returns the records, one that takes the request and
    returns the result envelope. *)
Inductive list_groups_fn : Type :=
  | NoArgHandler (f : M (list Group))
  | RequestHandler (f : ListGroupsRequest → M ListGroupsResult).

(** Modelled from the spec: the handling layer turns either shape into one
    contract, request to envelope; a handler of the first shape is wrapped so
    that it ignores the request and gives no next cursor. *)
Definition normalize (h : list_groups_fn) : ListGroupsRequest → M ListGroupsResult :=
  match h with
  | NoArgHandler f => λ _, gs <- f ;; ret (mkListGroupsResult gs None)
  | RequestHandler f => f
  end.

(** Modelled from the spec: a server knows whether a list-groups handler is
    installed; the handlers of other requests play no part. *)
Record Server : Type := mkServer {
  list_groups_handler : option (ListGroupsRequest → M ListGroupsResult)
}.

Definition Server_init : Server := mkServer None.

(** Modelled from the spec: the decorator [server.list_groups()] applied to a
    handler installs it. *)
Definition Server_list_groups (h : list_groups_fn) (s : Server) : Server :=
  mkServer (Some (normalize h)).

(** Modelled from the spec: the groups capability is in the advertised set if
    and only if a list handler is registered, and its [list_changed] is the
    notification option [groups_changed]. *)
Definition get_capabilities (s : Server) (notification_options : NotificationOptions)
    : ServerCapabilities :=
  mkServerCapabilities
    (match list_groups_handler s with
     | Some _ => Some (mkGroupsCapability (groups_changed notification_options))
     | None => None
     end).

(** Modelled from the spec: dispatch of a list request; a request for which
    no handler was ever registered is the dispatch layer's error. *)
Definition handle_list_groups (s : Server) (req : ListGroupsRequest) : M ListGroupsResult :=
  match list_groups_handler s with
  | Some h => h req
  | None => raise (MethodNotFound "groups/list")
  end.

(** Iterating a sequence reference: its items, or an error for a reference
    to nothing. *)
Definition iterate (r : seqref) : M (list Group) :=
  λ w, match items r w with
       | Some gs => (Return gs, w)
       | None => (Raise IndexError, w)
       end.

(** Modelled from the spec: the default implementation returns the full
    contents of the registry's [list_groups()]; [FastMCP] installs it as a
    handler of the first shape when it is constructed. *)
Definition FastMCP_list_groups : M (list Group) :=
  r <- list_groups ;;
  iterate r.

Definition FastMCP_init : Server :=
  Server_list_groups (NoArgHandler FastMCP_list_groups) Server_init.

(** ** What a call does, without the world

    The registry, the store of list objects and the returned value after one
    call, as functions of the registry and the store before it.  The lemmas
    [invoke_pure] and [script_pure] below show that the methods compute
    exactly these. *)

Definition next_registry (c : call) (d : dict.t Group) : dict.t Group :=
  match c with
  | CallAdd g =>
      match dict.get (name g) d with
      | Some _ => d
      | None => d ++ [(name g, g)]
      end
  | CallRemove n =>
      match dict.delitem n d with
      | Some d' => d'
      | None => d
      end
  | CallGet _ | CallList => d
  end.

Definition next_lists (c : call) (d : dict.t Group) (ls : list (list Group))
    : list (list Group) :=
  match c with
  | CallList => ls ++ [dict.values d]
  | _ => ls
  end.

Definition returned (c : call) (d : dict.t Group) (ls : list (list Group)) : retval :=
  match c with
  | CallAdd g =>
      RGroup (match dict.get (name g) d with Some e => e | None => g end)
  | CallGet n => RFound (dict.get n d)
  | CallRemove _ => RNone
  | CallList => RList (ListObj (length ls)) (Some (dict.values d))
  end.

Fixpoint pure_script (cs : list call) (d : dict.t Group) (ls : list (list Group))
    : list retval * (dict.t Group * list (list Group)) :=
  match cs with
  | [] => ([], (d, ls))
  | c :: cs' =>
      let '(rs, st) := pure_script cs' (next_registry c d) (next_lists c d ls) in
      (returned c d ls :: rs, st)
  end.

(** ** Records used in the tests *)

Definition ex_parent : Group :=
  mkGroup "parent" (Some "Parent Group") None None None None.

Definition ex_child : Group :=
  mkGroup "child" (Some "Child Group") None None None
    (Some [(GROUPS_META_KEY, PyList [PyStr "parent"])]).

Definition ex_dup : Group :=
  mkGroup "dup" (Some "Duplicate") None None None None.

Definition ex_dup_other : Group :=
  mkGroup "dup" (Some "Another title") (Some "same name, other fields") None None None.

Definition ex_world : World :=
  mkWorld (mkGroupManager [("parent", ex_parent); ("child", ex_child)] true) [] [].

(** ** Further vocabulary for the methods' behaviour *)

(** The text that [add_group] hands to [logger.warning]. *)
Definition duplicate_message (g : Group) : string :=
  "Group '" +:+ name g +:+ "' is already registered".

(** A call touches a name when it is [add_group] of a record of that name or
    [remove_group] of the name. *)
Definition touches (c : call) (n : string) : Prop :=
  match c with
  | CallAdd g => name g = n
  | CallRemove m => m = n
  | CallGet _ | CallList => False
  end.

(** ** Worlds that the methods leave behind *)

(** The world after [self._groups] has become [d]. *)
Definition with_groups (d : dict.t Group) (w : World) : World :=
  mkWorld (mkGroupManager d (_warn_on_duplicate_groups (self w))) (lists w) (caplog w).

(** The world after the duplicate of [g] has been reported, or not. *)
Definition warned (g : Group) (w : World) : World :=
  if _warn_on_duplicate_groups (self w)
  then mkWorld (self w) (lists w)
         (caplog w ++ ["Group '" +:+ name g +:+ "' is already registered"])
  else w.

(** ** Facts about dictionaries *)

Section dict_facts.
Context {V : Type}.
Implicit Types (d : dict.t V) (k : string) (v : V).

Lemma get_None k d : dict.get k d = None ↔ k ∉ dict.keys d.
Proof.
  induction d as [|[k' v'] d IH]; simpl.
  - split; [intros _; apply not_elem_of_nil | done].
  - rewrite not_elem_of_cons. destruct (decide (k = k')) as [->|Hne].
    + split; [done | intros [? _]; done].
    + rewrite IH. tauto.
Qed.

Lemma get_Some_elem k v d : dict.get k d = Some v → (k, v) ∈ d.
Proof.
  induction d as [|[k' v'] d IH]; simpl; [done|].
  destruct (decide (k = k')) as [->|Hne].
  - intros [= ->]. apply list_elem_of_here.
  - intros H. apply list_elem_of_further, IH, H.
Qed.

Lemma elem_get_Some k v d : dict.wf d → (k, v) ∈ d → dict.get k d = Some v.
Proof.
  unfold dict.wf, dict.keys.
  induction d as [|[k' v'] d IH]; simpl; intros Hnd Hin.
  - by apply elem_of_nil in Hin.
  - apply NoDup_cons in Hnd as [Hk Hnd].
    apply elem_of_cons in Hin as [[= -> ->]|Hin].
    + by rewrite decide_True.
    + rewrite decide_False; [by apply IH|].
      intros ->. apply Hk. apply list_elem_of_fmap. by exists (k', v).
Qed.

Lemma get_setitem_eq k v d : dict.get k (dict.setitem k v d) = Some v.
Proof.
  induction d as [|[k' v'] d IH]; simpl.
  - by rewrite decide_True.
  - destruct (decide (k = k')) as [->|Hne]; simpl.
    + by rewrite decide_True.
    + by rewrite decide_False.
Qed.

Lemma get_setitem_ne k k' v d :
  k ≠ k' → dict.get k' (dict.setitem k v d) = dict.get k' d.
Proof.
  intros Hne. induction d as [|[k0 v0] d IH]; simpl.
  - by rewrite decide_False.
  - destruct (decide (k = k0)) as [->|Hne0]; simpl.
    + by rewrite !(decide_False (P := k' = k0)).
    + by rewrite IH.
Qed.

(** A new key goes to the end. *)
Lemma setitem_fresh k v d :
  dict.get k d = None → dict.setitem k v d = d ++ [(k, v)].
Proof.
  induction d as [|[k' v'] d IH]; simpl; [done|].
  destruct (decide (k = k')); [done|]. intros H. by rewrite IH.
Qed.

Lemma get_app k d1 d2 :
  dict.get k (d1 ++ d2) =
    match dict.get k d1 with Some v => Some v | None => dict.get k d2 end.
Proof.
  induction d1 as [|[k' v'] d1 IH]; simpl; [done|].
  by destruct (decide (k = k')).
Qed.

(** [del d[k]] succeeds exactly on the keys that [k in d] accepts. *)
Lemma delitem_contains k d :
  dict.contains k d = true → is_Some (dict.delitem k d).
Proof.
  unfold dict.contains.
  induction d as [|[k' v'] d IH]; simpl; [done|].
  destruct (decide (k = k')); [by eexists|].
  intros H. destruct (IH H) as [d' ->]. by eexists.
Qed.

Lemma delitem_missing k d :
  dict.contains k d = false → dict.delitem k d = None.
Proof.
  unfold dict.contains.
  induction d as [|[k' v'] d IH]; simpl; [done|].
  destruct (decide (k = k')); [done|].
  intros H. by rewrite IH.
Qed.

Lemma filter_all (P : string * V → Prop) `{!∀ x, Decision (P x)} d :
  Forall P d → filter P d = d.
Proof.
  induction 1 as [|x d Hx _ IH]; [done|].
  by rewrite filter_cons_True, IH.
Qed.

(** On a well-formed dictionary, deleting [k] drops the one entry whose key
    is [k] and keeps the others in place. *)
Lemma delitem_filter k d d' :
  dict.wf d → dict.delitem k d = Some d' →
  d' = filter (λ kv, kv.1 ≠ k) d.
Proof.
  unfold dict.wf, dict.keys. revert d'.
  induction d as [|[k' v'] d IH]; intros d' Hnd Hdel; [done|].
  rewrite fmap_cons in Hnd. apply NoDup_cons in Hnd as [Hk Hnd].
  simpl in Hdel. destruct (decide (k = k')) as [->|Hne].
  - injection Hdel as <-.
    rewrite filter_cons_False by (simpl; tauto).
    symmetry. apply filter_all, Forall_forall.
    intros [k0 v0] Hin; simpl. intros ->. apply Hk.
    apply list_elem_of_fmap. by exists (k', v0).
  - destruct (dict.delitem k d) as [d''|] eqn:E; [|done].
    injection Hdel as <-.
    rewrite filter_cons_True by (simpl; congruence).
    f_equal. by apply IH.
Qed.

Lemma get_filter_ne k k' d :
  k' ≠ k → dict.get k' (filter (λ kv, kv.1 ≠ k) d) = dict.get k' d.
Proof.
  intros Hne. induction d as [|[k0 v0] d IH]; [done|].
  destruct (decide (k0 = k)) as [->|Hne0].
  - rewrite filter_cons_False by (simpl; tauto).
    simpl. by rewrite decide_False.
  - rewrite filter_cons_True by done. simpl. by rewrite IH.
Qed.

Lemma get_filter_eq k d : dict.get k (filter (λ kv, kv.1 ≠ k) d) = None.
Proof.
  apply get_None. unfold dict.keys. intros Hin.
  apply list_elem_of_fmap in Hin as [[k0 v0] [-> Hin]].
  apply list_elem_of_filter in Hin as [Hne _]. by apply Hne.
Qed.

Lemma wf_filter (P : string * V → Prop) `{!∀ x, Decision (P x)} d :
  dict.wf d → dict.wf (filter P d).
Proof.
  unfold dict.wf, dict.keys. intros Hnd.
  eapply sublist_NoDup; [exact Hnd|].
  apply fmap_sublist, sublist_filter.
Qed.

Lemma wf_snoc k v d : dict.wf d → dict.get k d = None → dict.wf (d ++ [(k, v)]).
Proof.
  unfold dict.wf, dict.keys. intros Hnd Hk.
  rewrite fmap_app. apply NoDup_app. split; [done|]. split.
  - intros x Hx Hx'. apply list_elem_of_singleton in Hx' as ->.
    by apply get_None in Hk.
  - apply NoDup_singleton.
Qed.
End dict_facts.

(** ** The methods as equations on worlds *)

Ltac py_unfold :=
  unfold add_group, get_group, remove_group, list_groups, list_new,
    groups_values, get_groups, set_groups, get_warn, logger_warning,
    read_items, iterate, bind, ret, raise, registry in *;
  simpl in *.

Lemma add_group_registered w g e :
  dict.get (name g) (registry w) = Some e →
  add_group g w = (Return e, warned g w).
Proof.
  intros H. unfold warned. py_unfold. rewrite H.
  by destruct (_warn_on_duplicate_groups (self w)).
Qed.

Lemma add_group_fresh w g :
  dict.get (name g) (registry w) = None →
  add_group g w = (Return g, with_groups (registry w ++ [(name g, g)]) w).
Proof.
  intros H. unfold with_groups. py_unfold. rewrite H.
  by rewrite (setitem_fresh _ _ _ H).
Qed.

Lemma registry_warned g w : registry (warned g w) = registry w.
Proof. unfold warned. by destruct (_warn_on_duplicate_groups (self w)). Qed.

Lemma self_warned g w : self (warned g w) = self w.
Proof. unfold warned. by destruct (_warn_on_duplicate_groups (self w)). Qed.

Lemma lists_warned g w : lists (warned g w) = lists w.
Proof. unfold warned. by destruct (_warn_on_duplicate_groups (self w)). Qed.

Lemma get_group_eq w n : get_group n w = (Return (dict.get n (registry w)), w).
Proof. reflexivity. Qed.

Lemma remove_group_missing w n :
  dict.get n (registry w) = None → remove_group n w = (Return (), w).
Proof.
  intros H. py_unfold. unfold dict.contains. by rewrite H.
Qed.

Lemma remove_group_registered w n :
  dict.wf (registry w) → is_Some (dict.get n (registry w)) →
  remove_group n w =
    (Return (), with_groups (filter (λ kv, kv.1 ≠ n) (registry w)) w).
Proof.
  intros Hwf [e He]. unfold with_groups. py_unfold.
  assert (Hc : dict.contains n (_groups (self w)) = true)
    by (unfold dict.contains; by rewrite He).
  rewrite Hc. destruct (delitem_contains _ _ Hc) as [d' Hd'].
  rewrite Hd'. by rewrite (delitem_filter _ _ _ Hwf Hd').
Qed.

(** [remove_group] on any world, told apart by one test. *)
Lemma remove_group_eq w n :
  dict.wf (registry w) →
  remove_group n w =
    (Return (),
     match dict.get n (registry w) with
     | Some _ => with_groups (filter (λ kv, kv.1 ≠ n) (registry w)) w
     | None => w
     end).
Proof.
  intros Hwf. destruct (dict.get n (registry w)) eqn:E.
  - apply remove_group_registered; [done | by rewrite E].
  - by apply remove_group_missing.
Qed.

(** Removing a name that is not there filters nothing out. *)
Lemma filter_missing (d : dict.t Group) n :
  dict.get n d = None → filter (λ kv, kv.1 ≠ n) d = d.
Proof.
  intros H. apply filter_all, Forall_forall. intros [k v] Hin; simpl.
  intros ->. apply get_None in H. apply H.
  apply list_elem_of_fmap. by exists (n, v).
Qed.

(** ** The methods compute the pure transition *)

Lemma get_delitem_ne (d d' : dict.t Group) k k' :
  dict.delitem k d = Some d' → k' ≠ k → dict.get k' d' = dict.get k' d.
Proof.
  revert d'. induction d as [|[k0 v0] d IH]; simpl; intros d' Hdel Hne; [done|].
  destruct (decide (k = k0)) as [->|Hk].
  - injection Hdel as <-. by rewrite decide_False.
  - destruct (dict.delitem k d) as [d''|] eqn:E; [|done].
    injection Hdel as <-. simpl.
    destruct (decide (k' = k0)); [done|]. by apply IH.
Qed.

Lemma invoke_pure w c :
  ∃ w', invoke c w = (Return (returned c (registry w) (lists w)), w') ∧
        registry w' = next_registry c (registry w) ∧
        lists w' = next_lists c (registry w) (lists w) ∧
        _warn_on_duplicate_groups (self w') = _warn_on_duplicate_groups (self w).
Proof.
  destruct c as [g|n|n|]; unfold invoke.
  - destruct (dict.get (name g) (registry w)) as [e|] eqn:E.
    + exists (warned g w). unfold bind at 1.
      rewrite (add_group_registered _ _ _ E). simpl. rewrite E.
      rewrite registry_warned, lists_warned, self_warned. done.
    + eexists. unfold bind at 1. rewrite (add_group_fresh _ _ E).
      simpl. rewrite E. done.
  - exists w. done.
  - destruct (dict.contains n (registry w)) eqn:Hc.
    + destruct (delitem_contains _ _ Hc) as [d' Hd'].
      exists (with_groups d' w). py_unfold. rewrite Hc, Hd'. done.
    + exists w. py_unfold. rewrite Hc, (delitem_missing _ _ Hc). done.
  - exists (mkWorld (self w) (lists w ++ [dict.values (registry w)]) (caplog w)).
    py_unfold. unfold items; simpl.
    rewrite lookup_app_r by lia. rewrite Nat.sub_diag. done.
Qed.

Lemma script_pure cs : ∀ w,
  ∃ w', script cs w = (Return (pure_script cs (registry w) (lists w)).1, w') ∧
        (registry w', lists w') = (pure_script cs (registry w) (lists w)).2 ∧
        _warn_on_duplicate_groups (self w') = _warn_on_duplicate_groups (self w).
Proof.
  induction cs as [|c cs IH]; intros w.
  - exists w. done.
  - destruct (invoke_pure w c) as (w1 & Hc & Hr & Hl & Hf).
    destruct (IH w1) as (w2 & Hcs & Hst & Hf2).
    exists w2. simpl. unfold bind at 1. rewrite Hc.
    unfold bind at 1. rewrite Hcs. rewrite Hr, Hl in *.
    destruct (pure_script cs _ _) as [rs st]. simpl in *.
    split; [done|]. split; [done|]. congruence.
Qed.

(** ** The registry's contract *)

(** C1: when a record named [name g] is already registered, [add_group g]
    returns the stored record, does not raise, and leaves the manager (the
    stored records with all their fields, and the flag) and every list object
    as they were; consequently two calls of [add_group] with one name, the
    fields differing or not, both return the record of the first call and
    leave the registry that the first call alone leaves. *)
Theorem add_group_idempotent (w : World) (g e g1 g2 : Group) :
  (dict.get (name g) (registry w) = Some e →
     ∃ w', add_group g w = (Return e, w') ∧
           self w' = self w ∧ lists w' = lists w) ∧
  (name g2 = name g1 →
     ∃ r w1 w2, add_group g1 w = (Return r, w1) ∧
                add_group g2 w1 = (Return r, w2) ∧
                self w2 = self w1 ∧ lists w2 = lists w1).
Proof.
  split.
  - intros H. exists (warned g w).
    by rewrite (add_group_registered _ _ _ H), self_warned, lists_warned.
  - intros Hn.
    assert (∃ r w1, add_group g1 w = (Return r, w1) ∧
                    dict.get (name g1) (registry w1) = Some r)
      as (r & w1 & H1 & Hr).
    { destruct (dict.get (name g1) (registry w)) as [e1|] eqn:E.
      - exists e1, (warned g1 w).
        by rewrite (add_group_registered _ _ _ E), registry_warned.
      - exists g1, (with_groups (registry w ++ [(name g1, g1)]) w).
        rewrite (add_group_fresh _ _ E). split; [done|].
        unfold registry, with_groups; simpl.
        rewrite get_app. fold (registry w). rewrite E. simpl.
        by rewrite decide_True. }
    rewrite <- Hn in Hr. exists r, w1, (warned g2 w1).
    by rewrite H1, (add_group_registered _ _ _ Hr), self_warned, lists_warned.
Qed.

Lemma add_group_idempotent_witness :
  (dict.get (name ex_dup_other) (registry (after (add_group ex_dup) ex_world))
     = Some ex_dup ∧
   ∃ w', add_group ex_dup_other (after (add_group ex_dup) ex_world)
           = (Return ex_dup, w') ∧
         self w' = self (after (add_group ex_dup) ex_world) ∧
         lists w' = lists (after (add_group ex_dup) ex_world)) ∧
  (name ex_dup_other = name ex_dup ∧
   ∃ r w1 w2, add_group ex_dup ex_world = (Return r, w1) ∧
              add_group ex_dup_other w1 = (Return r, w2) ∧
              self w2 = self w1 ∧ lists w2 = lists w1).
Proof.
  pose proof (add_group_idempotent (after (add_group ex_dup) ex_world)
                ex_dup_other ex_dup ex_dup ex_dup_other) as [H1 _].
  pose proof (add_group_idempotent ex_world ex_dup ex_dup ex_dup ex_dup_other)
    as [_ H2].
  split.
  - split; [reflexivity | apply H1; reflexivity].
  - split; [reflexivity | apply H2; reflexivity].
Defined.

(** C5: [remove_group n] never raises; it drops the record named [n] when
    there is one and changes nothing when there is none; afterwards
    [get_group n] finds nothing, every other record is where it was, and a
    second [remove_group n] returns as well and changes nothing. *)
Theorem remove_group_total (w : World) (n : string) :
  dict.wf (registry w) →
  ∃ w1, remove_group n w = (Return (), w1) ∧
        (dict.get n (registry w) = None → w1 = w) ∧
        registry w1 = filter (λ kv, kv.1 ≠ n) (registry w) ∧
        get_group n w1 = (Return None, w1) ∧
        (∀ n', n' ≠ n → get_group n' w1 = (Return (dict.get n' (registry w)), w1)) ∧
        lists w1 = lists w ∧ caplog w1 = caplog w ∧
        remove_group n w1 = (Return (), w1).
Proof.
  intros Hwf. rewrite (remove_group_eq _ _ Hwf).
  destruct (dict.get n (registry w)) as [e|] eqn:E.
  - eexists; split; [reflexivity|]. split; [done|].
    assert (Hr : registry (with_groups (filter (λ kv, kv.1 ≠ n) (registry w)) w)
                 = filter (λ kv, kv.1 ≠ n) (registry w)) by done.
    split; [done|]. rewrite !get_group_eq, Hr. rewrite get_filter_eq.
    split; [done|]. split.
    { intros n' Hn'. rewrite get_group_eq, Hr. by rewrite get_filter_ne. }
    split; [done|]. split; [done|].
    apply remove_group_missing. rewrite Hr. apply get_filter_eq.
  - exists w. split; [done|]. split; [done|].
    split; [by rewrite filter_missing|].
    rewrite get_group_eq, E. split; [done|].
    split; [intros; by rewrite get_group_eq|].
    split; [done|]. split; [done|]. by apply remove_group_missing.
Qed.

Lemma remove_group_total_witness :
  dict.wf (registry ex_world) ∧
  ∃ w1, remove_group "parent" ex_world = (Return (), w1) ∧
        (dict.get "parent" (registry ex_world) = None → w1 = ex_world) ∧
        registry w1 = filter (λ kv, kv.1 ≠ "parent") (registry ex_world) ∧
        get_group "parent" w1 = (Return None, w1) ∧
        (∀ n', n' ≠ "parent" →
               get_group n' w1 = (Return (dict.get n' (registry ex_world)), w1)) ∧
        lists w1 = lists ex_world ∧ caplog w1 = caplog ex_world ∧
        remove_group "parent" w1 = (Return (), w1).
Proof.
  assert (Hwf : dict.wf (registry ex_world)).
  { unfold dict.wf, dict.keys. apply (bool_decide_unpack _). vm_compute. exact I. }
  split; [exact Hwf | exact (remove_group_total ex_world "parent" Hwf)].
Defined.

Lemma registry_wf_values (d : dict.t Group) g :
  registry_wf d → g ∈ dict.values d ↔ (name g, g) ∈ d.
Proof.
  intros [_ Hk]. unfold dict.values. rewrite list_elem_of_fmap. split.
  - intros ([k g'] & -> & Hin). simpl. by rewrite <- (Hk _ _ Hin).
  - intros Hin. by exists (name g, g).
Qed.

(** C6: [get_group n] never raises and leaves the world as it is; it returns
    the stored record whose name is [n] exactly when there is one, and [None]
    exactly when there is none. *)
Theorem get_group_lookup (w : World) (n : string) :
  registry_wf (registry w) →
  ∃ o, get_group n w = (Return o, w) ∧
       (∀ g, o = Some g ↔ g ∈ dict.values (registry w) ∧ name g = n) ∧
       (o = None ↔ ∀ g, g ∈ dict.values (registry w) → name g ≠ n).
Proof.
  intros Hwf. exists (dict.get n (registry w)). split; [apply get_group_eq|].
  assert (Hsome : ∀ g, dict.get n (registry w) = Some g ↔
                       g ∈ dict.values (registry w) ∧ name g = n).
  { intros g. rewrite (registry_wf_values _ _ Hwf). split.
    - intros H. apply get_Some_elem in H.
      destruct Hwf as [_ Hk]. pose proof (Hk _ _ H) as ->. done.
    - intros [Hin <-]. apply elem_get_Some; [apply Hwf | done]. }
  split; [exact Hsome|]. split.
  - intros Hnone g Hg Hn.
    assert (dict.get n (registry w) = Some g) as Hs by (apply Hsome; done).
    congruence.
  - intros Hall. destruct (dict.get n (registry w)) as [g|] eqn:E; [|done].
    destruct (proj1 (Hsome g) eq_refl) as [Hin Hn]. by destruct (Hall g Hin).
Qed.

Lemma ex_world_wf : registry_wf (registry ex_world).
Proof.
  split.
  - unfold dict.wf, dict.keys. apply (bool_decide_unpack _). vm_compute. exact I.
  - intros k g Hin. simpl in Hin.
    apply elem_of_cons in Hin as [[= -> ->]|Hin]; [reflexivity|].
    apply elem_of_cons in Hin as [[= -> ->]|Hin]; [reflexivity|].
    by apply elem_of_nil in Hin.
Defined.

Lemma get_group_lookup_witness :
  registry_wf (registry ex_world) ∧
  ∃ o, get_group "child" ex_world = (Return o, ex_world) ∧
       (∀ g, o = Some g ↔ g ∈ dict.values (registry ex_world) ∧ name g = "child") ∧
       (o = None ↔ ∀ g, g ∈ dict.values (registry ex_world) → name g ≠ "child").
Proof.
  split; [exact ex_world_wf | exact (get_group_lookup ex_world "child" ex_world_wf)].
Defined.

(** A record stays where it is through every call but [remove_group] of its
    own name. *)
Lemma next_registry_keeps c (d : dict.t Group) n g :
  dict.get n d = Some g → c ≠ CallRemove n →
  dict.get n (next_registry c d) = Some g.
Proof.
  intros Hg Hc. destruct c as [g'|n'|n'|]; simpl; try done.
  - destruct (dict.get (name g') d) eqn:E; [done|].
    rewrite get_app, Hg. done.
  - destruct (dict.delitem n' d) as [d'|] eqn:E; [|done].
    rewrite (get_delitem_ne _ _ _ _ E); [done | congruence].
Qed.

Lemma script_keeps cs : ∀ w n g,
  dict.get n (registry w) = Some g → CallRemove n ∉ cs →
  ∃ rs w', script cs w = (Return rs, w') ∧ dict.get n (registry w') = Some g.
Proof.
  induction cs as [|c cs IH]; intros w n g Hg Hcs.
  - by exists [], w.
  - apply not_elem_of_cons in Hcs as [Hc Hcs].
    destruct (invoke_pure w c) as (w1 & Hi & Hr & _).
    assert (Hg1 : dict.get n (registry w1) = Some g).
    { rewrite Hr. apply next_registry_keeps; [done | congruence]. }
    destruct (IH w1 n g Hg1 Hcs) as (rs & w2 & Hs & Hg2).
    eexists _, w2. simpl. unfold bind at 1. rewrite Hi.
    unfold bind at 1. rewrite Hs. done.
Qed.

(** C3: a record built from keyword arguments and added under a name that is
    not yet registered is found again by [get_group] with the [meta] that was
    supplied, whatever mapping that is, and it keeps that [meta] through every
    later call other than [remove_group] of its own name; in particular, with
    [parent] (no meta) and [child] (meta holding the list with "parent" under
    the reserved key) added, removing [parent] leaves [child] stored with its
    meta as supplied. *)
Theorem meta_round_trip :
  (∀ (w : World) (kw : GroupArgs) (n : string),
     arg_name kw = Some n → dict.get n (registry w) = None →
     ∃ g w1, Group_init kw = Return g ∧ add_group g w = (Return g, w1) ∧
       (∃ r, get_group n w1 = (Return (Some r), w1) ∧ meta r = arg_meta kw) ∧
       (∀ cs, CallRemove n ∉ cs →
          ∃ rs w2 r, script cs w1 = (Return rs, w2) ∧
                     get_group n w2 = (Return (Some r), w2) ∧
                     meta r = arg_meta kw)) ∧
  (∀ b : bool,
     result (add_group ex_parent ;;; add_group ex_child ;;;
             remove_group "parent" ;;; get_group "child") (new_world b)
       = Return (Some ex_child) ∧
     meta ex_child = Some [(GROUPS_META_KEY, PyList [PyStr "parent"])]).
Proof.
  split.
  - intros w kw n Hn Hfresh.
    set (g := mkGroup n (arg_title kw) (arg_description kw) (arg_icons kw)
                (arg_annotations kw) (arg_meta kw)).
    assert (Hinit : Group_init kw = Return g) by (unfold Group_init; by rewrite Hn).
    assert (Hadd : add_group g w = (Return g, with_groups (registry w ++ [(n, g)]) w))
      by (by apply (add_group_fresh w g)).
    assert (Hget : dict.get n (registry (with_groups (registry w ++ [(n, g)]) w))
                   = Some g).
    { unfold registry at 1, with_groups; simpl. rewrite get_app, Hfresh. simpl.
      by rewrite decide_True. }
    exists g, (with_groups (registry w ++ [(n, g)]) w).
    split; [done|]. split; [done|]. split.
    + exists g. by rewrite get_group_eq, Hget.
    + intros cs Hcs.
      destruct (script_keeps cs _ n g Hget Hcs) as (rs & w2 & Hs & Hg2).
      exists rs, w2, g. by rewrite get_group_eq, Hg2.
  - intros []; split; reflexivity.
Qed.

Lemma meta_round_trip_witness :
  arg_name (mkGroupArgs (Some "child") (Some "Child Group") None None None
              (meta ex_child)) = Some "child" ∧
  dict.get "child" (registry (after (add_group ex_parent) (new_world true))) = None ∧
  ∃ g w1,
    Group_init (mkGroupArgs (Some "child") (Some "Child Group") None None None
                  (meta ex_child)) = Return g ∧
    add_group g (after (add_group ex_parent) (new_world true)) = (Return g, w1) ∧
    (∃ r, get_group "child" w1 = (Return (Some r), w1) ∧ meta r = meta ex_child) ∧
    (∀ cs, CallRemove "child" ∉ cs →
       ∃ rs w2 r, script cs w1 = (Return rs, w2) ∧
                  get_group "child" w2 = (Return (Some r), w2) ∧
                  meta r = meta ex_child).
Proof.
  split; [reflexivity|]. split; [reflexivity|].
  exact (proj1 meta_round_trip (after (add_group ex_parent) (new_world true))
           (mkGroupArgs (Some "child") (Some "Child Group") None None None
              (meta ex_child)) "child" eq_refl eq_refl).
Defined.

(** C9, as the code has it: a [Group] cannot be built without a name, but
    every string is accepted as one, the empty string included; a record whose
    name is not yet registered is stored under it and found again, whether the
    name is empty or not. *)
Theorem group_name_required (kw : GroupArgs) :
  (arg_name kw = None → Group_init kw = Raise (ValidationError "name")) ∧
  (∀ n, arg_name kw = Some n →
     ∃ g, Group_init kw = Return g ∧ name g = n ∧
          ∀ w, dict.get n (registry w) = None →
               ∃ w', add_group g w = (Return g, w') ∧
                     get_group n w' = (Return (Some g), w')).
Proof.
  split.
  - intros H. unfold Group_init. by rewrite H.
  - intros n Hn. eexists. split; [unfold Group_init; by rewrite Hn|].
    split; [done|]. intros w Hfresh.
    eexists. split; [by apply add_group_fresh|].
    rewrite get_group_eq. unfold registry at 1, with_groups; simpl.
    rewrite get_app. simpl in Hfresh. rewrite Hfresh. simpl.
    by rewrite decide_True.
Qed.

Lemma group_name_required_witness :
  (arg_name (mkGroupArgs None (Some "No name") None None None None) = None ∧
   Group_init (mkGroupArgs None (Some "No name") None None None None)
     = Raise (ValidationError "name")) ∧
  (arg_name (mkGroupArgs (Some "") None None None None None) = Some "" ∧
   ∃ g, Group_init (mkGroupArgs (Some "") None None None None None) = Return g ∧
        name g = "" ∧
        ∀ w, dict.get "" (registry w) = None →
             ∃ w', add_group g w = (Return g, w') ∧
                   get_group "" w' = (Return (Some g), w')).
Proof.
  split.
  - split; [reflexivity|].
    exact (proj1 (group_name_required
                    (mkGroupArgs None (Some "No name") None None None None)) eq_refl).
  - split; [reflexivity|].
    exact (proj2 (group_name_required
                    (mkGroupArgs (Some "") None None None None None)) "" eq_refl).
Defined.

(** C9, as the claim has it, fails: the record with the empty name is built,
    stored by [add_group] and found by [get_group]. *)
Lemma empty_name_is_stored :
  Group_init (mkGroupArgs (Some "") None None None None None)
    = Return (mkGroup "" None None None None None) ∧
  result (add_group (mkGroup "" None None None None None) ;;; get_group "")
    (new_world true)
    = Return (Some (mkGroup "" None None None None None)) ∧
  registry (after (add_group (mkGroup "" None None None None None)) (new_world true))
    = [("", mkGroup "" None None None None None)].
Proof. repeat split. Qed.

Lemma invoke_quiet w c :
  _warn_on_duplicate_groups (self w) = false →
  caplog (after (invoke c) w) = caplog w.
Proof.
  intros Hf. unfold after. destruct c as [g|n|n|]; unfold invoke.
  - destruct (dict.get (name g) (registry w)) as [e|] eqn:E.
    + unfold bind at 1. rewrite (add_group_registered _ _ _ E). simpl.
      unfold warned. by rewrite Hf.
    + unfold bind at 1. by rewrite (add_group_fresh _ _ E).
  - done.
  - py_unfold. destruct (dict.contains n _); [|done].
    by destruct (dict.delitem n _).
  - done.
Qed.

Lemma script_quiet cs : ∀ w,
  _warn_on_duplicate_groups (self w) = false →
  caplog (after (script cs) w) = caplog w.
Proof.
  induction cs as [|c cs IH]; intros w Hf; [done|].
  destruct (invoke_pure w c) as (w1 & Hi & _ & _ & Hf1).
  destruct (script_pure cs w1) as (w2 & Hs & _).
  pose proof (invoke_quiet w c Hf) as Hq. unfold after in Hq. rewrite Hi in Hq.
  rewrite Hf in Hf1. specialize (IH w1 Hf1). unfold after in IH |- *.
  rewrite Hs in IH. simpl. unfold bind at 1. rewrite Hi.
  unfold bind at 1. rewrite Hs. simpl in *. congruence.
Qed.

(** C10: the flag [warn_on_duplicate_groups] shows in the log and nowhere
    else: run on a manager built with [True] and on one built with [False],
    any sequence of [add_group], [get_group], [remove_group] and [list_groups]
    calls returns the same values (lists compared by their items), and ends in
    the same registry and the same list objects; the manager built with
    [False] logs nothing. *)
Theorem warn_flag_inert (cs : list call) :
  ∃ rs w_on w_off,
    script cs (new_world true) = (Return rs, w_on) ∧
    script cs (new_world false) = (Return rs, w_off) ∧
    registry w_on = registry w_off ∧
    lists w_on = lists w_off ∧
    caplog w_off = [].
Proof.
  destruct (script_pure cs (new_world true)) as (w_on & Hon & Hst_on & _).
  destruct (script_pure cs (new_world false)) as (w_off & Hoff & Hst_off & _).
  exists (pure_script cs [] []).1, w_on, w_off.
  split; [exact Hon|]. split; [exact Hoff|].
  change (registry (new_world true)) with (registry (new_world false)) in Hst_on.
  change (lists (new_world true)) with (lists (new_world false)) in Hst_on.
  rewrite <- Hst_off in Hst_on. injection Hst_on as Hr Hl.
  split; [done|]. split; [done|].
  pose proof (script_quiet cs (new_world false) eq_refl) as Hq.
  unfold after in Hq. by rewrite Hoff in Hq.
Qed.

(** ** The protocol side *)

(** C4: the groups capability is advertised exactly when a list-groups
    handler is registered.  Without a handler the entry is absent; with one
    it is present and its [list_changed] is the notification option
    [groups_changed].  A fresh server advertises none, and registering a
    handler of either shape makes the server advertise it. *)
Theorem groups_capability_iff_handler (s : Server) (opts : NotificationOptions) :
  (is_Some (groups (get_capabilities s opts)) ↔ is_Some (list_groups_handler s)) ∧
  (list_groups_handler s = None → groups (get_capabilities s opts) = None) ∧
  (is_Some (list_groups_handler s) →
     groups (get_capabilities s opts)
       = Some (mkGroupsCapability (groups_changed opts))) ∧
  groups (get_capabilities Server_init opts) = None ∧
  (∀ h, groups (get_capabilities (Server_list_groups h s) opts)
          = Some (mkGroupsCapability (groups_changed opts))).
Proof.
  unfold get_capabilities; simpl.
  split; [|split; [|split; [|split]]].
  - destruct (list_groups_handler s); split; intros [x Hx]; try done; by eexists.
  - by intros ->.
  - by intros [h ->].
  - done.
  - done.
Qed.

Lemma groups_capability_iff_handler_witness :
  (list_groups_handler Server_init = None ∧
   groups (get_capabilities Server_init NotificationOptions_default) = None) ∧
  (is_Some (list_groups_handler FastMCP_init) ∧
   groups (get_capabilities FastMCP_init (mkNotificationOptions false false false true))
     = Some (mkGroupsCapability true)).
Proof.
  split.
  - split; [reflexivity|].
    exact (proj1 (proj2 (groups_capability_iff_handler Server_init
                           NotificationOptions_default)) eq_refl).
  - assert (H : is_Some (list_groups_handler FastMCP_init))
      by (eexists; reflexivity).
    split; [exact H|].
    exact (proj1 (proj2 (proj2 (groups_capability_iff_handler FastMCP_init
             (mkNotificationOptions false false false true)))) H).
Defined.

Lemma default_handler_eq w req :
  handle_list_groups FastMCP_init req w
    = (Return (mkListGroupsResult (dict.values (registry w)) None),
       mkWorld (self w) (lists w ++ [dict.values (registry w)]) (caplog w)).
Proof.
  unfold handle_list_groups, FastMCP_init, Server_list_groups, normalize,
    FastMCP_list_groups; simpl.
  py_unfold. unfold items; simpl.
  rewrite lookup_app_r by lia. by rewrite Nat.sub_diag.
Qed.

(** C7: with no custom handler installed, a list request without a cursor is
    answered by one envelope holding every record of the registry, in the
    registry's order, and no next cursor: both records for a registry holding
    [A] and [B], the empty sequence for an empty registry.  The manager is
    left as it was. *)
Theorem default_list_unpaginated (w : World) (A B : Group) :
  (∃ w', handle_list_groups FastMCP_init (mkListGroupsRequest None) w
           = (Return (mkListGroupsResult (dict.values (registry w)) None), w') ∧
         self w' = self w) ∧
  (registry w = [(name A, A); (name B, B)] →
     result (handle_list_groups FastMCP_init (mkListGroupsRequest None)) w
       = Return (mkListGroupsResult [A; B] None)) ∧
  (registry w = [] →
     result (handle_list_groups FastMCP_init (mkListGroupsRequest None)) w
       = Return (mkListGroupsResult [] None)) ∧
  (name A ≠ name B → ∀ b,
     result (add_group A ;;; add_group B ;;;
             handle_list_groups FastMCP_init (mkListGroupsRequest None))
       (new_world b)
       = Return (mkListGroupsResult [A; B] None)) ∧
  (∀ b, result (handle_list_groups FastMCP_init (mkListGroupsRequest None))
          (new_world b)
          = Return (mkListGroupsResult [] None)).
Proof.
  split; [|split; [|split; [|split]]].
  - eexists. by rewrite default_handler_eq.
  - intros H. unfold result. by rewrite default_handler_eq, H.
  - intros H. unfold result. by rewrite default_handler_eq, H.
  - intros Hne b. unfold result, bind.
    rewrite (add_group_fresh (new_world b) A eq_refl).
    rewrite add_group_fresh.
    + by rewrite default_handler_eq.
    + simpl. by rewrite decide_False.
  - intros b. unfold result. by rewrite default_handler_eq.
Qed.

Lemma default_list_unpaginated_witness :
  (registry ex_world = [(name ex_parent, ex_parent); (name ex_child, ex_child)] ∧
   result (handle_list_groups FastMCP_init (mkListGroupsRequest None)) ex_world
     = Return (mkListGroupsResult [ex_parent; ex_child] None)) ∧
  (registry (new_world true) = [] ∧
   result (handle_list_groups FastMCP_init (mkListGroupsRequest None)) (new_world true)
     = Return (mkListGroupsResult [] None)) ∧
  (name ex_parent ≠ name ex_child ∧
   ∀ b, result (add_group ex_parent ;;; add_group ex_child ;;;
                handle_list_groups FastMCP_init (mkListGroupsRequest None))
          (new_world b)
          = Return (mkListGroupsResult [ex_parent; ex_child] None)).
Proof.
  assert (Hne : name ex_parent ≠ name ex_child) by (simpl; discriminate).
  split; [|split].
  - split; [reflexivity|].
    exact (proj1 (proj2 (default_list_unpaginated ex_world ex_parent ex_child))
             eq_refl).
  - split; [reflexivity|].
    exact (proj1 (proj2 (proj2 (default_list_unpaginated (new_world true)
                                  ex_parent ex_child))) eq_refl).
  - split; [exact Hne|].
    exact (proj1 (proj2 (proj2 (proj2 (default_list_unpaginated ex_world
                                         ex_parent ex_child)))) Hne).
Defined.

(** ** Lists handed out by [list_groups] *)

(** No call on the manager touches a list object that already exists: the
    store only grows at its end. *)
Lemma pure_script_lists cs : ∀ d ls,
  ∃ more, (pure_script cs d ls).2.2 = ls ++ more.
Proof.
  induction cs as [|c cs IH]; intros d ls; simpl.
  - exists []. by rewrite app_nil_r.
  - destruct (IH (next_registry c d) (next_lists c d ls)) as [more Hm].
    destruct (pure_script cs _ _) as [rs st]. simpl in *. rewrite Hm.
    destruct c; simpl; try by exists more.
    exists (dict.values d :: more). by rewrite <- app_assoc.
Qed.

Lemma script_keeps_lists cs w l gs :
  lists w !! l = Some gs →
  ∃ rs w', script cs w = (Return rs, w') ∧ lists w' !! l = Some gs.
Proof.
  intros Hl. destruct (script_pure cs w) as (w' & Hs & Hst & _).
  destruct (pure_script_lists cs (registry w) (lists w)) as [more Hm].
  exists (pure_script cs (registry w) (lists w)).1, w'. split; [done|].
  rewrite <- Hst in Hm. simpl in Hm. rewrite Hm.
  by apply lookup_app_l_Some.
Qed.

(** The view [self._groups.values()] itself is live: what it shows follows
    the registry.  Handing it out would not give a snapshot. *)
Example values_view_is_live :
  items ValuesView (new_world true) = Some [] ∧
  items ValuesView (after (add_group ex_parent) (new_world true))
    = Some [ex_parent].
Proof. split; reflexivity. Qed.

(** C8: [list_groups] returns a list object that did not exist before the
    call and holds the registry's records at the time of the call.  No later
    call on the manager changes what that list holds, and appending to it or
    deleting from it leaves the manager, and so what [get_group] and a fresh
    [list_groups] return, as it was. *)
Theorem list_groups_snapshot (w : World) :
  ∃ l w1,
    list_groups w = (Return (ListObj l), w1) ∧
    lists w !! l = None ∧
    self w1 = self w ∧
    items (ListObj l) w1 = Some (dict.values (registry w)) ∧
    (∀ cs, ∃ rs w2,
       script cs w1 = (Return rs, w2) ∧
       items (ListObj l) w2 = Some (dict.values (registry w))) ∧
    (∀ g, ∃ w2,
       list_append (ListObj l) g w1 = (Return (), w2) ∧
       self w2 = self w1 ∧
       items (ListObj l) w2 = Some (dict.values (registry w) ++ [g]) ∧
       items ValuesView w2 = Some (dict.values (registry w))) ∧
    (∀ i, self (after (list_delitem (ListObj l) i) w1) = self w1 ∧
          (i < length (dict.values (registry w)) →
           ∃ w2, list_delitem (ListObj l) i w1 = (Return (), w2) ∧
                 items (ListObj l) w2
                   = Some (delete i (dict.values (registry w))) ∧
                 items ValuesView w2 = Some (dict.values (registry w)))).
Proof.
  set (vs := dict.values (registry w)).
  set (w1 := mkWorld (self w) (lists w ++ [vs]) (caplog w)).
  assert (Hl : lists w1 !! length (lists w) = Some vs).
  { simpl. rewrite lookup_app_r by lia. by rewrite Nat.sub_diag. }
  exists (length (lists w)), w1.
  split; [reflexivity|].
  split; [by apply lookup_ge_None_2|].
  split; [reflexivity|]. split; [exact Hl|]. split; [|split].
  - intros cs. by apply script_keeps_lists.
  - intros g. unfold list_append. cbv beta iota. rewrite Hl. eexists.
    split; [reflexivity|]. split; [reflexivity|]. split; [|reflexivity].
    unfold items; simpl. apply list_lookup_insert_eq.
    rewrite length_app; simpl; lia.
  - intros i. unfold after, list_delitem. cbv beta iota. rewrite Hl. split.
    + by destruct (decide (i < length vs)).
    + intros Hi. rewrite decide_True by done. eexists.
      split; [reflexivity|]. split; [|reflexivity].
      unfold items; simpl. apply list_lookup_insert_eq.
      rewrite length_app; simpl; lia.
Qed.

Lemma list_groups_snapshot_witness :
  0 < length (dict.values (registry ex_world)) ∧
  ∃ l w1 w2,
    list_groups ex_world = (Return (ListObj l), w1) ∧
    list_delitem (ListObj l) 0 w1 = (Return (), w2) ∧
    items (ListObj l) w2 = Some (delete 0 (dict.values (registry ex_world))) ∧
    items ValuesView w2 = Some (dict.values (registry ex_world)).
Proof.
  assert (Hi : 0 < length (dict.values (registry ex_world))) by (simpl; lia).
  split; [exact Hi|].
  destruct (list_groups_snapshot ex_world)
    as (l & w1 & Hlist & _ & _ & _ & _ & _ & Hdel).
  destruct (proj2 (Hdel 0) Hi) as (w2 & H1 & H2 & H3).
  exists l, w1, w2. auto.
Defined.

(** ** Histories and the registry they describe *)

Lemma present_nil n : ¬ present [] n.
Proof. intros (j & g & H & _). by rewrite lookup_nil in H. Qed.

Lemma present_snoc cs c n :
  present (cs ++ [c]) n ↔
    (present cs n ∧ c ≠ CallRemove n) ∨ (∃ g, c = CallAdd g ∧ name g = n).
Proof.
  split.
  - intros (j & g & Hj & Hn & Hlater).
    apply lookup_snoc_Some in Hj as [[Hlt Hj]|[-> ->]].
    + left. split.
      * exists j, g. split; [done|]. split; [done|].
        intros k Hk Hr. apply (Hlater k Hk). by apply lookup_app_l_Some.
      * intros ->. apply (Hlater (length cs) Hlt).
        apply lookup_snoc_Some. right. done.
    + right. by exists g.
  - intros [[(j & g & Hj & Hn & Hlater) Hc]|(g & -> & Hn)].
    + exists j, g. split; [by apply lookup_app_l_Some|]. split; [done|].
      intros k Hk Hr. apply lookup_snoc_Some in Hr as [[_ Hr]|[_ ->]].
      * by apply (Hlater k Hk).
      * done.
    + exists (length cs), g. split; [apply lookup_snoc_Some; by right|].
      split; [done|]. intros k Hk Hr. apply lookup_lt_Some in Hr.
      rewrite length_app in Hr. simpl in Hr. lia.
Qed.

Lemma inserted_at_nil i g : ¬ inserted_at [] i g.
Proof. intros [H _]. by rewrite lookup_nil in H. Qed.

Lemma inserted_at_lt cs i g : inserted_at cs i g → i < length cs.
Proof. intros [H _]. by apply lookup_lt_Some in H. Qed.

Lemma inserted_at_snoc cs c i g :
  inserted_at (cs ++ [c]) i g ↔
    (inserted_at cs i g ∧ c ≠ CallRemove (name g)) ∨
    (i = length cs ∧ c = CallAdd g ∧ ¬ present cs (name g)).
Proof.
  split.
  - intros (Hi & Hnp & Hlater).
    apply lookup_snoc_Some in Hi as [[Hlt Hi]|[-> ->]].
    + left. rewrite take_app_le in Hnp by lia. split.
      * split; [done|]. split; [done|].
        intros k Hk Hr. apply (Hlater k Hk). by apply lookup_app_l_Some.
      * intros ->. apply (Hlater (length cs) Hlt).
        apply lookup_snoc_Some. by right.
    + right. by rewrite take_app_length in Hnp.
  - intros [[(Hi & Hnp & Hlater) Hc]|(-> & -> & Hnp)].
    + pose proof (lookup_lt_Some _ _ _ Hi) as Hlt.
      split; [by apply lookup_app_l_Some|]. split.
      * by rewrite take_app_le by lia.
      * intros k Hk Hr. apply lookup_snoc_Some in Hr as [[_ Hr]|[_ ->]].
        -- by apply (Hlater k Hk).
        -- done.
    + split; [apply lookup_snoc_Some; by right|]. split.
      * by rewrite take_app_length.
      * intros k Hk Hr. apply lookup_lt_Some in Hr.
        rewrite length_app in Hr. simpl in Hr. lia.
Qed.

(** A record that was inserted makes its name present. *)
Lemma inserted_at_present cs i g : inserted_at cs i g → present cs (name g).
Proof. intros (Hi & _ & Hlater). by exists i, g. Qed.

(** One name has one insertion. *)
Lemma inserted_at_unique cs i j g g' :
  inserted_at cs i g → inserted_at cs j g' → name g = name g' →
  i = j ∧ g = g'.
Proof.
  assert (Hlt : ∀ i j g g', inserted_at cs i g → inserted_at cs j g' →
                            name g = name g' → ¬ i < j).
  { clear. intros i j g g' (Hi & _ & Hlater) (Hj & Hnp & _) Hn Hij.
    apply Hnp. exists i, g. split; [by apply lookup_take_Some|].
    split; [done|]. intros k Hk Hr. apply lookup_take_Some in Hr as [Hr _].
    apply (Hlater k Hk). by rewrite Hn. }
  intros Hi Hj Hn.
  assert (i = j) as ->.
  { pose proof (Hlt _ _ _ _ Hi Hj Hn). pose proof (Hlt _ _ _ _ Hj Hi (eq_sym Hn)). lia. }
  split; [done|]. destruct Hi as [Hi _], Hj as [Hj _]. congruence.
Qed.

Lemma StronglySorted_mono_in {A} (R R' : relation A) (l : list A) :
  (∀ x y, x ∈ l → y ∈ l → R x y → R' x y) →
  StronglySorted R l → StronglySorted R' l.
Proof.
  induction l as [|a l IH]; intros Himp Hs; [constructor|].
  apply StronglySorted_cons in Hs as [Hall Hs].
  apply StronglySorted_cons. split.
  - apply Forall_forall. intros y Hy.
    apply Himp; [apply list_elem_of_here | by apply list_elem_of_further |].
    by apply (proj1 (Forall_forall _ _) Hall).
  - apply IH; [|done]. intros x y Hx Hy.
    apply Himp; by apply list_elem_of_further.
Qed.

Lemma StronglySorted_filter {A} (R : relation A) (P : A → Prop)
    `{!∀ x, Decision (P x)} (l : list A) :
  StronglySorted R l → StronglySorted R (filter P l).
Proof.
  induction l as [|a l IH]; intros Hs; [constructor|].
  apply StronglySorted_cons in Hs as [Hall Hs].
  rewrite filter_cons. destruct (decide (P a)); [|by apply IH].
  apply StronglySorted_cons. split; [|by apply IH].
  apply Forall_forall. intros y Hy. apply list_elem_of_filter in Hy as [_ Hy].
  by apply (proj1 (Forall_forall _ _) Hall).
Qed.

Lemma StronglySorted_lookup {A} (R : relation A) (l : list A) p q x y :
  StronglySorted R l → l !! p = Some x → l !! q = Some y → p < q → R x y.
Proof.
  intros Hs Hp Hq Hpq. rewrite <- (take_drop q l) in Hs.
  apply (StronglySorted_app_1_elem_of _ _ _ _ _ Hs).
  - apply list_elem_of_lookup. exists p. by apply lookup_take_Some.
  - apply list_elem_of_lookup. exists 0. rewrite lookup_drop.
    by rewrite Nat.add_0_r.
Qed.

(** On a dictionary with distinct keys, what [remove_group] leaves is the
    dictionary without the entry of that key. *)
Lemma next_registry_remove (d : dict.t Group) n :
  dict.wf d → next_registry (CallRemove n) d = filter (λ kv, kv.1 ≠ n) d.
Proof.
  intros Hwf. simpl. destruct (dict.delitem n d) as [d'|] eqn:E.
  - by apply delitem_filter.
  - symmetry. apply filter_missing.
    destruct (dict.get n d) eqn:G; [|done].
    assert (Hc : dict.contains n d = true) by (unfold dict.contains; by rewrite G).
    destruct (delitem_contains _ _ Hc) as [d' Hd']. congruence.
Qed.

Lemma keys_elem (d : dict.t Group) n :
  registry_wf d → n ∈ dict.keys d ↔ ∃ g, (name g, g) ∈ d ∧ name g = n.
Proof.
  intros [_ Hk]. unfold dict.keys. rewrite list_elem_of_fmap. split.
  - intros ([k g] & -> & Hin). simpl. exists g.
    by rewrite <- (Hk _ _ Hin).
  - intros (g & Hin & <-). by exists (name g, g).
Qed.

(** Every call keeps the keys distinct and equal to the names stored under
    them. *)
Lemma next_registry_wf c (d : dict.t Group) :
  registry_wf d → registry_wf (next_registry c d).
Proof.
  intros [Hnd Hk]. destruct c as [g|n|n|]; try done.
  - simpl. destruct (dict.get (name g) d) eqn:E; [done|]. split.
    + by apply wf_snoc.
    + intros k g' Hin. apply elem_of_app in Hin as [Hin|Hin]; [by apply Hk|].
      apply list_elem_of_singleton in Hin. by injection Hin as -> ->.
  - rewrite next_registry_remove by done. split; [by apply wf_filter|].
    intros k g Hin. apply list_elem_of_filter in Hin as [_ Hin]. by apply Hk.
Qed.

Lemma tracks_nil : tracks [] [].
Proof.
  split; [split|split; [|split]].
  - apply NoDup_nil_2.
  - intros k g H. by apply elem_of_nil in H.
  - intros n. split; [intros H; by apply elem_of_nil in H|].
    intros H. by apply present_nil in H.
  - intros g. split; [intros H; by apply elem_of_nil in H|].
    intros [i H]. by apply inserted_at_nil in H.
  - constructor.
Qed.

(** A call that neither adds nor removes anything leaves the history's
    reading of the registry as it is. *)
Lemma tracks_same cs c d :
  (∀ n, c ≠ CallRemove n) →
  (∀ g, c = CallAdd g → present cs (name g)) →
  tracks cs d → tracks (cs ++ [c]) d.
Proof.
  intros Hrm Hadd (Hwf & Hkeys & Hins & Hsort).
  assert (Hi : ∀ i g, inserted_at (cs ++ [c]) i g ↔ inserted_at cs i g).
  { intros i g. rewrite inserted_at_snoc. split.
    - intros [[H _]|(_ & Hc & Hnp)]; [done|]. destruct Hnp. by apply Hadd.
    - intros H. left. split; [done | apply Hrm]. }
  split; [done|]. split; [|split].
  - intros n. rewrite Hkeys, present_snoc. split.
    + intros H. left. split; [done | apply Hrm].
    + intros [[H _]|(g & Hc & <-)]; [done | by apply Hadd].
  - intros g. rewrite Hins. by setoid_rewrite Hi.
  - eapply StronglySorted_mono_in; [|exact Hsort].
    intros x y _ _ HR i j Hx Hy. apply HR; by apply Hi.
Qed.

Lemma tracks_add_fresh cs g d :
  dict.get (name g) d = None →
  tracks cs d → tracks (cs ++ [CallAdd g]) (d ++ [(name g, g)]).
Proof.
  intros Hfresh (Hwf & Hkeys & Hins & Hsort).
  assert (Hnp : ¬ present cs (name g)).
  { rewrite <- Hkeys. by apply get_None. }
  assert (Hold : ∀ i g', (name g', g') ∈ d →
            inserted_at (cs ++ [CallAdd g]) i g' → inserted_at cs i g').
  { intros i g' Hin Hi. apply inserted_at_snoc in Hi as [[H _]|(_ & [= <-] & _)].
    - done.
    - destruct Hnp. apply Hkeys. apply (keys_elem _ _ Hwf). by exists g. }
  split; [split|split; [|split]].
  - apply wf_snoc; [apply Hwf | done].
  - intros k g' Hin. apply elem_of_app in Hin as [Hin|Hin].
    + by apply (proj2 Hwf).
    + apply list_elem_of_singleton in Hin. by injection Hin as -> ->.
  - intros n. unfold dict.keys. rewrite fmap_app, elem_of_app.
    fold (dict.keys d). rewrite Hkeys, present_snoc. simpl.
    rewrite list_elem_of_singleton. split.
    + intros [H| ->]; [left; by split | right; by exists g].
    + intros [[H _]|(g' & [= <-] & <-)]; [by left | by right].
  - intros g'. rewrite elem_of_app, list_elem_of_singleton, Hins. split.
    + intros [[i Hi]|[= _ ->]].
      * exists i. apply inserted_at_snoc. left. by split.
      * exists (length cs). apply inserted_at_snoc. right. done.
    + intros [i Hi]. apply inserted_at_snoc in Hi as [[H _]|(_ & [= <-] & _)].
      * left. by exists i.
      * by right.
  - apply StronglySorted_app. split; [|split].
    + intros [k1 g1] x2 Hin1 Hin2 i j Hi Hj. simpl in *.
      apply list_elem_of_singleton in Hin2 as ->. simpl in Hj.
      pose proof (proj2 Hwf _ _ Hin1) as ->.
      apply (Hold _ _ Hin1), inserted_at_lt in Hi.
      apply inserted_at_snoc in Hj as [[Hj _]|(-> & _)]; [|done].
      destruct Hnp. by apply (inserted_at_present _ _ _ Hj).
    + eapply StronglySorted_mono_in; [|exact Hsort].
      intros [k1 g1] [k2 g2] Hin1 Hin2 HR i j Hi Hj. simpl in *.
      pose proof (proj2 Hwf _ _ Hin1) as ->.
      pose proof (proj2 Hwf _ _ Hin2) as ->.
      apply HR; simpl; by apply Hold.
    + repeat constructor.
Qed.

Lemma tracks_remove cs n d :
  tracks cs d →
  tracks (cs ++ [CallRemove n]) (filter (λ kv, kv.1 ≠ n) d).
Proof.
  intros (Hwf & Hkeys & Hins & Hsort).
  assert (Hi : ∀ i g, inserted_at (cs ++ [CallRemove n]) i g ↔
                      inserted_at cs i g ∧ name g ≠ n).
  { intros i g. rewrite inserted_at_snoc. split.
    - intros [[H Hc]|(_ & [=] & _)]. split; [done | congruence].
    - intros [H Hn]. left. split; [done | congruence]. }
  split; [split|split; [|split]].
  - apply wf_filter, Hwf.
  - intros k g Hin. apply list_elem_of_filter in Hin as [_ Hin].
    by apply (proj2 Hwf).
  - intros n'. rewrite present_snoc, <- Hkeys.
    unfold dict.keys. rewrite !list_elem_of_fmap. split.
    + intros ([k g] & -> & Hin). apply list_elem_of_filter in Hin as [Hne Hin].
      simpl in *. left. split; [by exists (k, g) | congruence].
    + intros [[([k g] & -> & Hin) Hc]|(g & [=] & _)]. simpl in *.
      exists (k, g). split; [done|]. apply list_elem_of_filter. split; [|done].
      simpl. congruence.
  - intros g. rewrite list_elem_of_filter, Hins. simpl. split.
    + intros [Hne [i H]]. exists i. by apply Hi.
    + intros [i H]. apply Hi in H as [H Hne]. split; [done | by exists i].
  - apply StronglySorted_filter.
    eapply StronglySorted_mono_in; [|exact Hsort].
    intros x y _ _ HR i j Hx Hy. apply Hi in Hx as [Hx _]. apply Hi in Hy as [Hy _].
    by apply HR.
Qed.

Lemma tracks_step cs c d :
  tracks cs d → tracks (cs ++ [c]) (next_registry c d).
Proof.
  intros Ht. destruct c as [g|n|n|].
  - simpl. destruct (dict.get (name g) d) as [e|] eqn:E.
    + apply tracks_same; [done | | done].
      intros g' [= <-]. apply (proj1 (proj2 Ht)).
      apply get_Some_elem in E. apply list_elem_of_fmap. by exists (name g, e).
    + by apply tracks_add_fresh.
  - by apply tracks_same.
  - rewrite next_registry_remove by apply Ht. by apply tracks_remove.
  - by apply tracks_same.
Qed.

Lemma pure_script_tracks cs : ∀ hist d ls,
  tracks hist d → tracks (hist ++ cs) (pure_script cs d ls).2.1.
Proof.
  induction cs as [|c cs IH]; intros hist d ls Ht; simpl.
  - by rewrite app_nil_r.
  - specialize (IH (hist ++ [c]) (next_registry c d) (next_lists c d ls)
                  (tracks_step _ c _ Ht)).
    rewrite <- app_assoc in IH. simpl in IH.
    by destruct (pure_script cs _ _) as [rs st].
Qed.

(** Every sequence of calls on a new manager returns, and leaves the
    registry that the sequence describes. *)
Lemma script_tracks b cs :
  ∃ rs w, script cs (new_world b) = (Return rs, w) ∧ tracks cs (registry w).
Proof.
  destruct (script_pure cs (new_world b)) as (w & Hs & Hst & _).
  eexists _, w. split; [exact Hs|].
  pose proof (pure_script_tracks cs [] [] [] tracks_nil) as Ht.
  change (registry (new_world b)) with (@nil (string * Group)) in Hst.
  change (lists (new_world b)) with (@nil (list Group)) in Hst.
  rewrite <- Hst in Ht. exact Ht.
Qed.

Lemma names_keys (d : dict.t Group) :
  registry_wf d → name <$> dict.values d = dict.keys d.
Proof.
  intros [_ Hk]. unfold dict.values, dict.keys.
  induction d as [|[k g] d IH]; [done|]. simpl. f_equal.
  - symmetry. apply Hk, list_elem_of_here.
  - apply IH. intros k' g' Hin. by apply Hk, list_elem_of_further.
Qed.

Lemma list_groups_eq w :
  list_groups w
    = (Return (ListObj (length (lists w))),
       mkWorld (self w) (lists w ++ [dict.values (registry w)]) (caplog w)).
Proof. reflexivity. Qed.

(** C2: after any sequence of calls on a new manager (of [add_group] and
    [remove_group], and of the two reading methods as well), [list_groups]
    returns exactly the records that the sequence inserted and did not remove
    since, one for each name present and no name twice, in the order of
    their insertion; a second [list_groups] right after returns a list with
    the same items, and leaves the first list as it is.  A record that is
    removed and added again was inserted by the later call. *)
Theorem list_groups_exact_ordered (b : bool) (cs : list call) :
  ∃ rs w r1 w1 r2 w2 gs,
    script cs (new_world b) = (Return rs, w) ∧
    list_groups w = (Return r1, w1) ∧ items r1 w1 = Some gs ∧
    list_groups w1 = (Return r2, w2) ∧ items r2 w2 = Some gs ∧
    items r1 w2 = Some gs ∧
    (∀ g, g ∈ gs ↔ ∃ i, inserted_at cs i g) ∧
    (∀ n, n ∈ name <$> gs ↔ present cs n) ∧
    NoDup (name <$> gs) ∧
    (∀ p q g1 g2 i1 i2,
       gs !! p = Some g1 → gs !! q = Some g2 →
       inserted_at cs i1 g1 → inserted_at cs i2 g2 →
       (p < q ↔ i1 < i2)).
Proof.
  destruct (script_tracks b cs) as (rs & w & Hs & Hwf & Hkeys & Hins & Hsort).
  set (gs := dict.values (registry w)).
  set (w1 := mkWorld (self w) (lists w ++ [gs]) (caplog w)).
  set (w2 := mkWorld (self w1) (lists w1 ++ [gs]) (caplog w1)).
  exists rs, w, (ListObj (length (lists w))), w1, (ListObj (length (lists w1))), w2, gs.
  split; [exact Hs|]. split; [apply list_groups_eq|].
  assert (H1 : lists w1 !! length (lists w) = Some gs).
  { simpl. rewrite lookup_app_r by lia. by rewrite Nat.sub_diag. }
  split; [exact H1|]. split; [apply list_groups_eq|].
  split; [simpl; rewrite lookup_app_r by lia; by rewrite Nat.sub_diag|].
  split; [simpl; by apply lookup_app_l_Some|].
  assert (Hord : ∀ p q g1 g2 i1 i2,
            gs !! p = Some g1 → gs !! q = Some g2 →
            inserted_at cs i1 g1 → inserted_at cs i2 g2 → p < q → i1 < i2).
  { intros p q g1 g2 i1 i2 Hp Hq Hi1 Hi2 Hpq.
    unfold gs, dict.values in Hp, Hq. rewrite list_lookup_fmap in Hp, Hq.
    destruct (registry w !! p) as [x|] eqn:Ex; [|done].
    destruct (registry w !! q) as [y|] eqn:Ey; [|done].
    injection Hp as <-. injection Hq as <-.
    by apply (StronglySorted_lookup _ _ _ _ _ _ Hsort Ex Ey Hpq). }
  split; [|split; [|split; [|]]].
  - intros g. unfold gs. by rewrite (registry_wf_values _ _ Hwf).
  - intros n. unfold gs. by rewrite (names_keys _ Hwf).
  - unfold gs. rewrite (names_keys _ Hwf). apply Hwf.
  - intros p q g1 g2 i1 i2 Hp Hq Hi1 Hi2. split; [by eapply Hord|].
    intros Hlt. destruct (decide (p < q)) as [|Hnlt]; [done|].
    destruct (decide (p = q)) as [->|Hne].
    + rewrite Hp in Hq. injection Hq as ->.
      destruct (inserted_at_unique _ _ _ _ _ Hi1 Hi2 eq_refl). lia.
    + assert (q < p) as Hqp by lia.
      pose proof (Hord _ _ _ _ _ _ Hq Hp Hi2 Hi1 Hqp). lia.
Qed.

Lemma ex_inserted_parent : inserted_at [CallAdd ex_parent; CallAdd ex_child] 0 ex_parent.
Proof.
  split; [reflexivity|]. split.
  - apply present_nil.
  - intros [|[|k]] Hk H; [lia | discriminate | discriminate].
Defined.

Lemma ex_inserted_child : inserted_at [CallAdd ex_parent; CallAdd ex_child] 1 ex_child.
Proof.
  split; [reflexivity|]. split.
  - intros ([|j] & g & Hj & Hn & _); [|discriminate].
    injection Hj as <-. discriminate.
  - intros [|[|k]] Hk H; [lia | lia | discriminate].
Defined.

Lemma list_groups_exact_ordered_witness :
  ∃ gs : list Group, gs !! 0 = Some ex_parent ∧ gs !! 1 = Some ex_child ∧
        inserted_at [CallAdd ex_parent; CallAdd ex_child] 0 ex_parent ∧
        inserted_at [CallAdd ex_parent; CallAdd ex_child] 1 ex_child ∧
        (0 < 1 ↔ 0 < 1).
Proof.
  destruct (list_groups_exact_ordered true [CallAdd ex_parent; CallAdd ex_child])
    as (rs & w & r1 & w1 & r2 & w2 & gs & Hs & H1 & Hgs & _ & _ & _ & _ & _ & _ & Hord).
  injection Hs as _ <-. injection H1 as <- <-. injection Hgs as <-.
  exists [ex_parent; ex_child]. split; [reflexivity|]. split; [reflexivity|].
  split; [exact ex_inserted_parent|]. split; [exact ex_inserted_child|].
  exact (Hord 0 1 ex_parent ex_child 0 1 eq_refl eq_refl
           ex_inserted_parent ex_inserted_child).
Defined.

(** A record that is removed and added again goes to the end. *)
Example readded_goes_last :
  result (script [CallAdd ex_parent; CallAdd ex_child; CallRemove "parent";
                  CallAdd ex_parent; CallAdd ex_dup; CallAdd ex_dup_other;
                  CallList])
    (new_world true)
  = Return [RGroup ex_parent; RGroup ex_child; RNone; RGroup ex_parent;
            RGroup ex_dup; RGroup ex_dup;
            RList (ListObj 0) (Some [ex_child; ex_parent; ex_dup])].
Proof. reflexivity. Qed.

(** ** More of the manager's behaviour *)

(** X1: [add_group] of a record whose name is not registered returns that
    record, puts it last in the registry, makes [get_group] find it, leaves
    the lookup of every other name as it was, and logs nothing, whatever the
    flag. *)
Theorem add_group_new_name (w : World) (g : Group) :
  dict.get (name g) (registry w) = None →
  ∃ w', add_group g w = (Return g, w') ∧
        registry w' = registry w ++ [(name g, g)] ∧
        dict.values (registry w') = dict.values (registry w) ++ [g] ∧
        get_group (name g) w' = (Return (Some g), w') ∧
        (∀ n, n ≠ name g →
              get_group n w' = (Return (dict.get n (registry w)), w')) ∧
        caplog w' = caplog w ∧ lists w' = lists w ∧
        _warn_on_duplicate_groups (self w') = _warn_on_duplicate_groups (self w).
Proof.
  intros Hfresh. exists (with_groups (registry w ++ [(name g, g)]) w).
  split; [by apply add_group_fresh|]. split; [done|].
  split; [exact (fmap_app snd (registry w) [(name g, g)])|].
  rewrite !get_group_eq.
  change (registry (with_groups (registry w ++ [(name g, g)]) w))
    with (registry w ++ [(name g, g)]).
  split; [rewrite get_app, Hfresh; simpl; by rewrite decide_True|].
  split; [|done].
  intros n Hn. rewrite get_group_eq.
  change (registry (with_groups (registry w ++ [(name g, g)]) w))
    with (registry w ++ [(name g, g)]).
  rewrite get_app. destruct (dict.get n (registry w)); [done|].
  simpl. by rewrite decide_False.
Qed.

Lemma add_group_new_name_witness :
  dict.get (name ex_dup) (registry ex_world) = None ∧
  ∃ w', add_group ex_dup ex_world = (Return ex_dup, w') ∧
        registry w' = registry ex_world ++ [(name ex_dup, ex_dup)] ∧
        dict.values (registry w') = dict.values (registry ex_world) ++ [ex_dup] ∧
        get_group (name ex_dup) w' = (Return (Some ex_dup), w') ∧
        (∀ n, n ≠ name ex_dup →
              get_group n w' = (Return (dict.get n (registry ex_world)), w')) ∧
        caplog w' = caplog ex_world ∧ lists w' = lists ex_world ∧
        _warn_on_duplicate_groups (self w')
          = _warn_on_duplicate_groups (self ex_world).
Proof.
  split; [reflexivity | exact (add_group_new_name ex_world ex_dup eq_refl)].
Defined.

Lemma invoke_caplog w c :
  caplog (after (invoke c) w) =
    caplog w ++
    match c with
    | CallAdd g =>
        match dict.get (name g) (registry w) with
        | Some _ =>
            if _warn_on_duplicate_groups (self w) then [duplicate_message g] else []
        | None => []
        end
    | _ => []
    end.
Proof.
  unfold after. destruct c as [g|n|n|]; unfold invoke.
  - destruct (dict.get (name g) (registry w)) as [e|] eqn:E.
    + unfold bind at 1. rewrite (add_group_registered _ _ _ E). simpl.
      unfold warned, duplicate_message.
      destruct (_warn_on_duplicate_groups (self w)); simpl; [done|].
      by rewrite app_nil_r.
    + unfold bind at 1. rewrite (add_group_fresh _ _ E). simpl.
      by rewrite app_nil_r.
  - simpl. by rewrite app_nil_r.
  - rewrite app_nil_r. py_unfold. destruct (dict.contains n _); [|done].
    by destruct (dict.delitem n _).
  - simpl. by rewrite app_nil_r.
Qed.

(** X2: of the four methods only [add_group] writes to the log, and it does
    so exactly when the name is already registered and the flag is set; the
    one record it then appends names the group.  Earlier log records are
    never changed. *)
Theorem warning_exactly_on_duplicate (w : World) (c : call) :
  caplog (after (invoke c) w) =
    caplog w ++
    match c with
    | CallAdd g =>
        match dict.get (name g) (registry w) with
        | Some _ =>
            if _warn_on_duplicate_groups (self w) then [duplicate_message g] else []
        | None => []
        end
    | _ => []
    end.
Proof. apply invoke_caplog. Qed.

Lemma invoke_tracks hist w c :
  tracks hist (registry w) →
  ∃ r w', invoke c w = (Return r, w') ∧ tracks (hist ++ [c]) (registry w') ∧
          _warn_on_duplicate_groups (self w') = _warn_on_duplicate_groups (self w).
Proof.
  intros Ht. destruct (invoke_pure w c) as (w' & Hi & Hr & _ & Hf).
  eexists _, w'. split; [exact Hi|]. split; [|exact Hf].
  rewrite Hr. by apply tracks_step.
Qed.

Lemma script_warnings cs : ∀ hist w,
  tracks hist (registry w) → _warn_on_duplicate_groups (self w) = true →
  ∃ rs w' logged,
    script cs w = (Return rs, w') ∧ caplog w' = caplog w ++ logged ∧
    ∀ m, m ∈ logged ↔
         ∃ i g, cs !! i = Some (CallAdd g) ∧
                present (hist ++ take i cs) (name g) ∧
                m = duplicate_message g.
Proof.
  induction cs as [|c cs IH]; intros hist w Ht Hf.
  - exists [], w, []. split; [done|]. split; [by rewrite app_nil_r|].
    intros m. split; [intros H; by apply elem_of_nil in H|].
    intros (i & g & Hi & _). by rewrite lookup_nil in Hi.
  - destruct (invoke_tracks hist w c Ht) as (r & w1 & Hi & Ht1 & Hf1).
    rewrite Hf in Hf1.
    destruct (IH (hist ++ [c]) w1 Ht1 Hf1) as (rs & w2 & logged & Hs & Hlog & Hmem).
    pose proof (invoke_caplog w c) as Hc. unfold after in Hc. rewrite Hi in Hc.
    simpl in Hc. rewrite Hf in Hc.
    eexists (r :: rs), w2, _. split.
    { simpl. unfold bind at 1. rewrite Hi. unfold bind at 1. by rewrite Hs. }
    split; [rewrite Hlog, Hc; by rewrite <- app_assoc|].
    intros m. rewrite elem_of_app, Hmem. split.
    + intros [H0|(i & g & Hci & Hp & ->)].
      * destruct c as [g|n|n|]; try by apply elem_of_nil in H0.
        destruct (dict.get (name g) (registry w)) as [e|] eqn:E;
          [|by apply elem_of_nil in H0].
        apply list_elem_of_singleton in H0 as ->.
        exists 0, g. split; [done|]. split; [|done].
        simpl. rewrite app_nil_r. apply (proj1 (proj2 Ht)).
        apply get_Some_elem in E. apply list_elem_of_fmap. by exists (name g, e).
      * exists (S i), g. split; [done|]. split; [|done].
        simpl. by rewrite cons_middle, app_assoc.
    + intros ([|i] & g & Hci & Hp & ->).
      * left. simpl in Hci. injection Hci as ->.
        simpl in Hp. rewrite app_nil_r in Hp.
        apply (proj1 (proj2 Ht)) in Hp.
        destruct (dict.get (name g) (registry w)) as [e|] eqn:E.
        -- apply list_elem_of_here.
        -- apply get_None in E. by destruct E.
      * right. exists i, g. split; [done|]. split; [|done].
        simpl in Hp. by rewrite cons_middle, app_assoc in Hp.
Qed.

(** X3: on a manager built with the flag set, the log after any sequence of
    calls holds the warning for a group exactly when some [add_group] in the
    sequence offered a record whose name was present at that moment. *)
Theorem warnings_are_the_duplicate_adds (cs : list call) :
  ∃ rs w,
    script cs (new_world true) = (Return rs, w) ∧
    ∀ m, m ∈ caplog w ↔
         ∃ i g, cs !! i = Some (CallAdd g) ∧
                present (take i cs) (name g) ∧
                m = duplicate_message g.
Proof.
  destruct (script_warnings cs [] (new_world true) tracks_nil eq_refl)
    as (rs & w & logged & Hs & Hlog & Hmem).
  exists rs, w. split; [exact Hs|]. intros m. rewrite Hlog. simpl.
  exact (Hmem m).
Qed.

(** X4: after any sequence of calls on a new manager, [get_group n] returns
    the record that the sequence inserted under [n] and did not remove since,
    that is the record of the first [add_group] of [n] after the last
    [remove_group] of [n], and [None] exactly when [n] is not present. *)
Theorem get_group_first_add_wins (b : bool) (cs : list call) :
  ∃ rs w,
    script cs (new_world b) = (Return rs, w) ∧
    ∀ n, ∃ o, get_group n w = (Return o, w) ∧
              (∀ g, o = Some g ↔ ∃ i, inserted_at cs i g ∧ name g = n) ∧
              (o = None ↔ ¬ present cs n).
Proof.
  destruct (script_tracks b cs) as (rs & w & Hs & Hwf & Hkeys & Hins & _).
  exists rs, w. split; [exact Hs|]. intros n.
  exists (dict.get n (registry w)). split; [apply get_group_eq|]. split.
  - intros g. split.
    + intros H. apply get_Some_elem in H.
      pose proof (proj2 Hwf _ _ H) as ->.
      apply Hins in H as [i Hi]. by exists i.
    + intros (i & Hi & <-). apply elem_get_Some; [apply Hwf|].
      apply Hins. by exists i.
  - rewrite <- Hkeys. apply get_None.
Qed.

Lemma next_registry_untouched c (d : dict.t Group) n :
  ¬ touches c n → dict.get n (next_registry c d) = dict.get n d.
Proof.
  intros Hc. destruct c as [g|m|m|]; simpl in *; try done.
  - destruct (dict.get (name g) d) eqn:E; [done|].
    rewrite get_app. destruct (dict.get n d); [done|].
    simpl. rewrite decide_False; [done | congruence].
  - destruct (dict.delitem m d) as [d'|] eqn:E; [|done].
    apply (get_delitem_ne _ _ _ _ E). congruence.
Qed.

(** X7: a sequence of calls none of which adds a record named [n] or removes
    [n] returns, and leaves what [get_group n] returns as it was. *)
Theorem untouched_name_unchanged (w : World) (cs : list call) (n : string) :
  (∀ c, c ∈ cs → ¬ touches c n) →
  ∃ rs w', script cs w = (Return rs, w') ∧
           get_group n w' = (Return (dict.get n (registry w)), w').
Proof.
  revert w. induction cs as [|c cs IH]; intros w Hcs.
  - by exists [], w.
  - destruct (invoke_pure w c) as (w1 & Hi & Hr & _).
    destruct (IH w1) as (rs & w2 & Hs & Hg).
    { intros c' Hc'. apply Hcs. by apply list_elem_of_further. }
    eexists _, w2. split.
    { simpl. unfold bind at 1. rewrite Hi. unfold bind at 1. by rewrite Hs. }
    rewrite Hg, Hr. rewrite next_registry_untouched; [done|].
    apply Hcs, list_elem_of_here.
Qed.

Lemma untouched_name_unchanged_witness :
  (∀ c, c ∈ [CallAdd ex_dup; CallRemove "parent"; CallList] → ¬ touches c "child") ∧
  ∃ rs w', script [CallAdd ex_dup; CallRemove "parent"; CallList] ex_world
             = (Return rs, w') ∧
           get_group "child" w'
             = (Return (dict.get "child" (registry ex_world)), w').
Proof.
  assert (H : ∀ c, c ∈ [CallAdd ex_dup; CallRemove "parent"; CallList] →
                   ¬ touches c "child").
  { intros c Hc.
    apply elem_of_cons in Hc as [->|Hc]; [simpl; discriminate|].
    apply elem_of_cons in Hc as [->|Hc]; [simpl; discriminate|].
    apply elem_of_cons in Hc as [->|Hc]; [simpl; tauto|].
    by apply elem_of_nil in Hc. }
  split; [exact H | exact (untouched_name_unchanged ex_world _ "child" H)].
Defined.

(** X8: started on a registry whose keys are distinct and are the names of the
    records under them, every sequence of calls returns a value for each call,
    none raises, and the registry it leaves has the same two properties; the
    flag stays as the constructor set it. *)
Theorem registry_wf_preserved (w : World) (cs : list call) :
  registry_wf (registry w) →
  ∃ rs w', script cs w = (Return rs, w') ∧
           registry_wf (registry w') ∧
           length rs = length cs ∧
           _warn_on_duplicate_groups (self w') = _warn_on_duplicate_groups (self w).
Proof.
  revert w. induction cs as [|c cs IH]; intros w Hwf.
  - by exists [], w.
  - destruct (invoke_pure w c) as (w1 & Hi & Hr & _ & Hf).
    destruct (IH w1) as (rs & w2 & Hs & Hwf2 & Hlen & Hf2).
    { rewrite Hr. by apply next_registry_wf. }
    eexists (_ :: rs), w2. split.
    { simpl. unfold bind at 1. rewrite Hi. unfold bind at 1. by rewrite Hs. }
    split; [done|]. split; [simpl; by rewrite Hlen | congruence].
Qed.

Lemma registry_wf_preserved_witness :
  registry_wf (registry ex_world) ∧
  ∃ rs w', script [CallRemove "child"; CallAdd ex_dup; CallAdd ex_dup_other] ex_world
             = (Return rs, w') ∧
           registry_wf (registry w') ∧
           length rs = length [CallRemove "child"; CallAdd ex_dup; CallAdd ex_dup_other] ∧
           _warn_on_duplicate_groups (self w')
             = _warn_on_duplicate_groups (self ex_world).
Proof.
  split; [exact ex_world_wf | exact (registry_wf_preserved ex_world _ ex_world_wf)].
Defined.

Lemma with_groups_warned d g w :
  with_groups d (warned g w) = warned g (with_groups d w).
Proof.
  unfold with_groups, warned.
  destruct w as [[d0 b] ls log]. simpl. by destruct b.
Qed.

Lemma remove_group_world w n :
  dict.wf (registry w) →
  ∃ w1, remove_group n w = (Return (), w1) ∧
        w1 = match dict.get n (registry w) with
             | Some _ => with_groups (filter (λ kv, kv.1 ≠ n) (registry w)) w
             | None => w
             end ∧
        registry w1 = filter (λ kv, kv.1 ≠ n) (registry w) ∧
        lists w1 = lists w ∧ caplog w1 = caplog w.
Proof.
  intros Hwf. rewrite (remove_group_eq _ _ Hwf). eexists. split; [reflexivity|].
  split; [reflexivity|].
  destruct (dict.get n (registry w)) eqn:E; [done|].
  by rewrite filter_missing.
Qed.

(** X5: the one way to put another record under a registered name is
    [remove_group] followed by [add_group]: the pair returns the new record,
    never warns, stores it after all the records that stay, and [get_group]
    then finds it, the other names being answered as before. *)
Theorem replace_by_remove_then_add (w : World) (g : Group) :
  dict.wf (registry w) →
  ∃ w', (remove_group (name g) ;;; add_group g) w = (Return g, w') ∧
        registry w' = filter (λ kv, kv.1 ≠ name g) (registry w) ++ [(name g, g)] ∧
        get_group (name g) w' = (Return (Some g), w') ∧
        (∀ n, n ≠ name g →
              get_group n w' = (Return (dict.get n (registry w)), w')) ∧
        caplog w' = caplog w ∧ lists w' = lists w.
Proof.
  intros Hwf.
  destruct (remove_group_world w (name g) Hwf) as (w1 & Hrm & _ & Hr1 & Hl1 & Hc1).
  assert (Hfresh : dict.get (name g) (registry w1) = None)
    by (rewrite Hr1; apply get_filter_eq).
  eexists. split.
  { unfold bind. rewrite Hrm. apply (add_group_fresh _ _ Hfresh). }
  assert (Hr : registry (with_groups (registry w1 ++ [(name g, g)]) w1)
               = filter (λ kv, kv.1 ≠ name g) (registry w) ++ [(name g, g)])
    by (by rewrite <- Hr1).
  split; [exact Hr|]. rewrite get_group_eq, Hr. split.
  { rewrite get_app, get_filter_eq. simpl. by rewrite decide_True. }
  split.
  { intros n Hn. rewrite get_group_eq, Hr, get_app, get_filter_ne by done.
    destruct (dict.get n (registry w)); [done|].
    simpl. by rewrite decide_False. }
  split; [exact Hc1 | exact Hl1].
Qed.

Lemma replace_by_remove_then_add_witness :
  dict.wf (registry ex_world) ∧
  ∃ w', (remove_group "parent" ;;;
         add_group (mkGroup "parent" (Some "Renamed") None None None None)) ex_world
          = (Return (mkGroup "parent" (Some "Renamed") None None None None), w') ∧
        get_group "parent" w'
          = (Return (Some (mkGroup "parent" (Some "Renamed") None None None None)), w') ∧
        caplog w' = caplog ex_world.
Proof.
  split; [exact (proj1 ex_world_wf)|].
  destruct (replace_by_remove_then_add ex_world
              (mkGroup "parent" (Some "Renamed") None None None None)
              (proj1 ex_world_wf))
    as (w' & H1 & _ & H2 & _ & H3 & _).
  exists w'. auto.
Defined.

(** X6: [add_group g] and [remove_group n] for another name [n] can be done
    in either order: both orders leave the same manager, list objects and log,
    and [add_group] returns the same record whether [remove_group n] went
    before it or not. *)
Theorem add_remove_commute (w : World) (g : Group) (n : string) :
  dict.wf (registry w) → n ≠ name g →
  after (add_group g ;;; remove_group n) w
    = after (remove_group n ;;; add_group g) w ∧
  result (remove_group n ;;; add_group g) w = result (add_group g) w ∧
  result (add_group g ;;; remove_group n) w = Return ().
Proof.
  intros Hwf Hn.
  destruct (remove_group_world w n Hwf) as (w1 & Hrm & Hw1 & Hr1 & _).
  assert (Hg1 : dict.get (name g) (registry w1) = dict.get (name g) (registry w))
    by (rewrite Hr1; apply get_filter_ne; congruence).
  unfold after, result, bind. rewrite Hrm.
  destruct (dict.get (name g) (registry w)) as [e|] eqn:E.
  - rewrite (add_group_registered _ _ _ E).
    rewrite (add_group_registered w1 g e) by congruence.
    assert (Hwf' : dict.wf (registry (warned g w))) by (by rewrite registry_warned).
    rewrite (remove_group_eq _ _ Hwf'). simpl. split; [|done].
    rewrite registry_warned, Hw1.
    destruct (dict.get n (registry w)); [|done].
    apply with_groups_warned.
  - rewrite (add_group_fresh _ _ E).
    rewrite (add_group_fresh w1 g) by congruence.
    set (w2 := with_groups (registry w ++ [(name g, g)]) w).
    assert (Hr2 : registry w2 = registry w ++ [(name g, g)]) by done.
    assert (Hwf2 : dict.wf (registry w2)) by (rewrite Hr2; by apply wf_snoc).
    rewrite (remove_group_eq _ _ Hwf2). simpl. split; [|done].
    rewrite Hr2, get_app, Hr1, Hw1.
    assert (Hf : filter (λ kv : string * Group, kv.1 ≠ n) (registry w ++ [(name g, g)])
                 = filter (λ kv, kv.1 ≠ n) (registry w) ++ [(name g, g)]).
    { rewrite filter_app. f_equal. rewrite filter_cons_True by (simpl; congruence).
      done. }
    destruct (dict.get n (registry w)) eqn:En.
    + unfold with_groups; simpl. by rewrite Hf.
    + simpl. rewrite decide_False by done.
      unfold with_groups; simpl. fold (registry w).
      by rewrite (filter_missing _ _ En).
Qed.

Lemma add_remove_commute_witness :
  dict.wf (registry ex_world) ∧ "parent" ≠ name ex_dup_other ∧
  after (add_group ex_dup_other ;;; remove_group "parent") ex_world
    = after (remove_group "parent" ;;; add_group ex_dup_other) ex_world.
Proof.
  assert (Hn : "parent" ≠ name ex_dup_other) by (vm_compute; discriminate).
  split; [exact (proj1 ex_world_wf)|]. split; [exact Hn|].
  exact (proj1 (add_remove_commute ex_world ex_dup_other "parent"
                  (proj1 ex_world_wf) Hn)).
Defined.



Lemma delitem_length {V} k (d d' : dict.t V) :
  dict.delitem k d = Some d' → length d = S (length d').
Proof.
  revert d'. induction d as [|[k0 v0] d IH]; simpl; intros d' H; [done|].
  destruct (decide (k = k0)); [by injection H as <-|].
  destruct (dict.delitem k d) as [d''|]; [|done].
  injection H as <-. simpl. f_equal. by apply IH.
Qed.

Lemma length_values {V} (d : dict.t V) : length (dict.values d) = length d.
Proof. unfold dict.values. apply length_fmap. Qed.

(** X10: how many records [list_groups] has to return changes by one call as
    follows: [add_group] makes it one more when the name was not registered
    and leaves it when it was; [remove_group] makes it one less when the name
    was registered and leaves it when it was not; [get_group] and
    [list_groups] leave it. *)
Theorem registry_size (w : World) (c : call) :
  length (dict.values (registry (after (invoke c) w)))
  = match c with
    | CallAdd g =>
        match dict.get (name g) (registry w) with
        | Some _ => length (dict.values (registry w))
        | None => S (length (dict.values (registry w)))
        end
    | CallRemove n =>
        match dict.get n (registry w) with
        | Some _ => pred (length (dict.values (registry w)))
        | None => length (dict.values (registry w))
        end
    | CallGet _ | CallList => length (dict.values (registry w))
    end.
Proof.
  destruct (invoke_pure w c) as (w' & Hi & Hr & _).
  unfold after. rewrite Hi. simpl. rewrite Hr, !length_values.
  destruct c as [g|n|n|]; simpl; try done.
  - destruct (dict.get (name g) (registry w)); [done|].
    rewrite length_app. simpl. lia.
  - destruct (dict.get n (registry w)) eqn:E.
    + destruct (delitem_contains n (registry w)) as [d' Hd].
      { unfold dict.contains. by rewrite E. }
      rewrite Hd. by rewrite (delitem_length _ _ _ Hd).
    + rewrite delitem_missing; [done|]. unfold dict.contains. by rewrite E.
Qed.
